(** * Smart PDF renamer: a shallow embedding of [smart_rename_papers.py]

    Python strings are modelled as lists of characters.  A character is a
    code point below 256 (Rocq's [ascii], read as Latin-1); on that range the
    character classes of Python's [re] and [str] methods are the ones written
    out below. *)

From Stdlib Require Import Ascii String.
From stdpp Require Import base list gmap strings pretty.

Open Scope list_scope.

(** ** Python strings *)

Module Py.

Abbreviation str := (list ascii).

(** A string literal. *)
Definition lit (s : string) : str := list_ascii_of_string s.

Definition code (c : ascii) : N := N_of_ascii c.

Definition between (lo hi : N) (c : ascii) : bool :=
  ((lo <=? code c)%N && (code c <=? hi)%N)%bool.

(** [str.isspace] on one character, which is also the class [\s] of [re]
    for [str] patterns: TAB..CR, FS..US, SPACE, NEL and NBSP. *)
Definition is_space (c : ascii) : bool :=
  (between 9 13 c || between 28 32 c
   || (code c =? 133)%N || (code c =? 160)%N)%bool.

(** The class [\d] of [re]: below 256 the decimal digits are [0-9]. *)
Definition is_digit (c : ascii) : bool := between 48 57 c.

Definition is_upper_az (c : ascii) : bool := between 65 90 c.
Definition is_lower_az (c : ascii) : bool := between 97 122 c.

(** Simple case mappings restricted to the letters that stay below 256 and
    can reach an ASCII range. *)
Definition to_upper (c : ascii) : ascii :=
  if is_lower_az c then ascii_of_N (code c - 32) else c.
Definition to_lower (c : ascii) : ascii :=
  if is_upper_az c then ascii_of_N (code c + 32) else c.

Definition mem (c : ascii) (chars : str) : bool :=
  bool_decide (c ∈ chars).

(** Truthiness of a string and of an optional string. *)
Definition truthy_str (s : str) : bool :=
  match s with [] => false | _ :: _ => true end.

Definition truthy (o : option str) : bool :=
  match o with None => false | Some s => truthy_str s end.

(** [a or b] on an optional string with a string default. *)
Definition or_else (o : option str) (d : str) : str :=
  match o with
  | Some s => if truthy_str s then s else d
  | None => d
  end.

(** [text.replace(ch, new)] for a one-character [ch]. *)
Definition replace (text : str) (ch : ascii) (new : str) : str :=
  text ≫= (λ c, if decide (c = ch) then new else [c]).

Fixpoint lstrip_by (p : ascii → bool) (s : str) : str :=
  match s with
  | [] => []
  | c :: t => if p c then lstrip_by p t else s
  end.

Definition rstrip_by (p : ascii → bool) (s : str) : str :=
  reverse (lstrip_by p (reverse s)).

(** [s.strip()], [s.rstrip()] and [s.rstrip(chars)]. *)
Definition strip (s : str) : str := rstrip_by is_space (lstrip_by is_space s).
Definition rstrip (s : str) : str := rstrip_by is_space s.
Definition rstrip_chars (chars : str) (s : str) : str :=
  rstrip_by (λ c, mem c chars) s.

(** [sep.join(parts)]. *)
Fixpoint join (sep : str) (parts : list str) : str :=
  match parts with
  | [] => []
  | [p] => p
  | p :: rest => p ++ sep ++ join sep rest
  end.

(** [str(i)] for a natural number. *)
Definition str_of_nat (i : nat) : str := lit (pretty i).

End Py.

Import Py.

(** ** The fragment of [re] the program uses

    Every pattern of the modelled functions is a sequence of character
    classes, each with a greedy repetition range.  Matching is Python's
    backtracking search: a repetition first takes as many characters as it
    can and gives them back one at a time. *)

Module Re.

Record item := Item {
  cls : ascii → bool;
  lo : nat;
  hi : option nat
}.

Definition pattern := list item.

Definition one (p : ascii → bool) : item := Item p 1 (Some 1).
Definition chr (c : ascii) : item := one (λ x, bool_decide (x = c)).
Definition plus (p : ascii → bool) : item := Item p 1 None.
Definition range (p : ascii → bool) (m n : nat) : item := Item p m (Some n).

(** The flag [re.I] on a class. *)
Definition ignorecase (p : ascii → bool) : ascii → bool :=
  λ c, (p c || p (to_lower c) || p (to_upper c))%bool.

(** Length of the longest prefix of [s] inside the class. *)
Fixpoint run (p : ascii → bool) (s : str) : nat :=
  match s with
  | c :: t => if p c then S (run p t) else 0
  | [] => 0
  end.

Definition cap (h : option nat) (n : nat) : nat :=
  match h with Some m => Nat.min m n | None => n end.

(** Try [k] repetitions, then [k-1], ... down to [low]; [cont j] matches
    the rest of the pattern after [j] characters. *)
Fixpoint backtrack (cont : nat → option nat) (low k : nat) : option nat :=
  if k <? low then None
  else match cont k with
       | Some m => Some (k + m)
       | None => match k with
                 | 0 => None
                 | S k' => backtrack cont low k'
                 end
       end.

(** Match [pat] at the start of [s]; the result is the length matched. *)
Fixpoint match_here (pat : pattern) (s : str) : option nat :=
  match pat with
  | [] => Some 0
  | it :: rest =>
      backtrack (λ k, match_here rest (drop k s)) (lo it)
                (cap (hi it) (run (cls it) s))
  end.

(** [pat.search(s)]: the leftmost start position with a match, and the
    length of that match. *)
Fixpoint search_from (pat : pattern) (s : str) (i : nat) : option (nat * nat) :=
  match match_here pat s with
  | Some n => Some (i, n)
  | None => match s with
            | [] => None
            | _ :: t => search_from pat t (S i)
            end
  end.

Definition search (pat : pattern) (s : str) : option (nat * nat) :=
  search_from pat s 0.

(** [m.group(0)]. *)
Definition group0 (s : str) (m : nat * nat) : str :=
  take (snd m) (drop (fst m) s).

(** [re.sub(pat, repl, s)] for a literal replacement: [skip] counts the
    characters of the current match still to be consumed. *)
Fixpoint sub_go (pat : pattern) (repl : str) (skip : nat) (s : str) : str :=
  match skip, s with
  | S k, _ :: t => sub_go pat repl k t
  | S _, [] => []
  | 0, [] => match match_here pat [] with
             | Some _ => repl
             | None => []
             end
  | 0, c :: t =>
      match match_here pat s with
      | Some (S n) => repl ++ sub_go pat repl n t
      | Some 0 => repl ++ c :: sub_go pat repl 0 t
      | None => c :: sub_go pat repl 0 t
      end
  end.

Definition sub (pat : pattern) (repl : str) (s : str) : str :=
  sub_go pat repl 0 s.

(** The language of a pattern, as the pattern reads: a string matches when
    it splits into one piece per item, each piece made of characters of
    the item's class and of a length the item allows. *)
Definition within (h : option nat) (n : nat) : Prop :=
  match h with Some m => n ≤ m | None => True end.

Inductive matches : pattern → str → Prop :=
  | matches_nil : matches [] []
  | matches_cons it rest u v :
      Forall (λ c, cls it c = true) u →
      lo it ≤ length u →
      within (hi it) (length u) →
      matches rest v →
      matches (it :: rest) (u ++ v).

End Re.

(** ** Utilities *)

Definition INVALID_CHARS : str := lit "<>:" ++ ["034"%char] ++ lit "/\\|?*".
Definition REPLACEMENT : str := lit " ".

(** The pattern [\s+]. *)
Definition WHITESPACE_RUN : Re.pattern := [Re.plus is_space].

(** The argument of [sanitize]: [None], a string, or another object, given
    by what [str()] returns for it. *)
Inductive text_arg :=
  | ArgNone
  | ArgStr (s : str)
  | ArgOther (shown : str).

Definition sanitize (text : text_arg) : str :=
  let text := match text with
              | ArgStr s => s
              | ArgOther shown => shown
              | ArgNone => []
              end in
  let text := fold_left (λ text ch, replace text ch REPLACEMENT) INVALID_CHARS text in
  let text := strip (Re.sub WHITESPACE_RUN (lit " ") text) in
  text.

Definition truncate_filename (name : str) (max_len : nat) : str :=
  if length name <=? max_len then name
  else rstrip (take max_len name).

(** ** Exceptions *)

Inductive exn :=
  | RuntimeError (msg : str)
  | ValueError (msg : str)
  | FileNotFoundError (msg : str)
  | RequestError (msg : str).

(** [str(e)]. *)
Definition exn_message (e : exn) : str :=
  match e with
  | RuntimeError m | ValueError m | FileNotFoundError m | RequestError m => m
  end.

Inductive result (A : Type) :=
  | Return (a : A)
  | Raise (e : exn).
Arguments Return {A} a.
Arguments Raise {A} e.

(** ** Paths and the file system

    A [pathlib.Path] on a POSIX system, as the directory it lies in and its
    final component.  The file system is the set of paths that exist. *)

Record Path := { parent : str; name : str }.

Global Instance Path_eq_dec : EqDecision Path.
Proof. solve_decision. Defined.

Global Instance Path_countable : Countable Path :=
  inj_countable' (λ p, (parent p, name p)) (λ q, {| parent := q.1; name := q.2 |})
                 (λ p, match p with Build_Path _ _ => eq_refl end).

Abbreviation FS := (gset Path).

(** [s.rfind(c)], with [None] for Python's [-1]. *)
Fixpoint rfind (c : ascii) (s : str) : option nat :=
  match s with
  | [] => None
  | x :: t => match rfind c t with
              | Some i => Some (S i)
              | None => if decide (x = c) then Some 0 else None
              end
  end.

(** The index at which the suffix starts: [i = name.rfind('.')] when
    [0 < i < len(name) - 1] (pathlib before Python 3.14). *)
Definition suffix_start (nm : str) : option nat :=
  match rfind "."%char nm with
  | Some i => if ((0 <? i) && (i + 1 <? length nm))%bool then Some i else None
  | None => None
  end.

Definition suffix (p : Path) : str :=
  match suffix_start (name p) with
  | Some i => drop i (name p)
  | None => []
  end.

Definition stem (p : Path) : str :=
  match suffix_start (name p) with
  | Some i => take i (name p)
  | None => name p
  end.

(** [path.with_name(new_name)]. *)
Definition with_name (p : Path) (new_name : str) : result Path :=
  if negb (truthy_str (name p)) then Raise (ValueError (lit "path has an empty name"))
  else if (negb (truthy_str new_name) || mem "/"%char new_name
           || bool_decide (new_name = lit "."))%bool
       then Raise (ValueError (lit "Invalid name"))
  else Return {| parent := parent p; name := new_name |}.

(** [p.exists()]. *)
Definition exists_ (fs : FS) (p : Path) : bool := bool_decide (p ∈ fs).

(** [path.rename(target)]: the entry moves; a missing source raises. *)
Definition rename (fs : FS) (path target : Path) : result unit * FS :=
  if exists_ fs path then (Return (), {[ target ]} ∪ (fs ∖ {[ path ]}))
  else (Raise (FileNotFoundError (lit "No such file or directory")), fs).

(** The candidate name [f"{stem} ({i}){suf}"]. *)
Definition numbered (stem suf : str) (i : nat) : str :=
  stem ++ lit " (" ++ str_of_nat i ++ lit ")" ++ suf.

(** The loop [while True] of [safe_rename], started at [i], run for at most
    [fuel] iterations; [None] when the fuel is used up. *)
Fixpoint first_unused (fs : FS) (path : Path) (stem suf : str) (fuel i : nat)
  : option (result Path) :=
  match fuel with
  | 0 => None
  | S fuel' =>
      match with_name path (numbered stem suf i) with
      | Raise e => Some (Raise e)
      | Return cand =>
          if negb (exists_ fs cand) then Some (Return cand)
          else first_unused fs path stem suf fuel' (S i)
      end
  end.

(** [safe_rename fuel fs path new_name dry_run]: the value returned or the
    exception raised, with the file system afterwards. *)
Definition safe_rename (fuel : nat) (fs : FS) (path : Path) (new_name : str)
    (dry_run : bool) : option (result Path * FS) :=
  match with_name path new_name with
  | Raise e => Some (Raise e, fs)
  | Return target =>
      if decide (target = path) then Some (Return target, fs)
      else
        let found :=
          if exists_ fs target
          then first_unused fs path (stem target) (suffix target) fuel 1
          else Some (Return target) in
        match found with
        | None => None
        | Some (Raise e) => Some (Raise e, fs)
        | Some (Return target) =>
            if negb dry_run then
              match rename fs path target with
              | (Return _, fs') => Some (Return target, fs')
              | (Raise e, fs') => Some (Raise e, fs')
              end
            else Some (Return target, fs)
        end
  end.

(** ** Data extraction *)

(** [10\.\d{4,9}/[-._;()/:A-Z0-9]+] with [re.I]. *)
Definition DOI_TAIL_CLASS (c : ascii) : bool :=
  (mem c (lit "-._;()/:") || is_upper_az c || is_digit c)%bool.

Definition DOI_PATTERN : Re.pattern :=
  [ Re.chr "1"; Re.chr "0"; Re.chr ".";
    Re.range is_digit 4 9;
    Re.chr "/";
    Re.plus (Re.ignorecase DOI_TAIL_CLASS) ].

(** A document opened by PyMuPDF: the text of each page ([None] where
    reading the page raises) and the embedded metadata. *)
Record Metadata := { meta_title : option str; meta_author : option str }.

Record Document := {
  pages : list (option str);
  metadata : option Metadata
}.

Definition extract_visible_text (doc : Document) (max_pages : nat) : str :=
  let text := omap id (take (Nat.min max_pages (length (pages doc))) (pages doc)) in
  join (lit (String "010" "")) text.

Definition find_doi (text : option str) : option str :=
  match Re.search DOI_PATTERN (or_else text []) with
  | None => None
  | Some m => Some (rstrip_chars (lit ").,;]}>") (Re.group0 (or_else text []) m))
  end.

(** The [message] object of a Crossref reply. *)
Record Author := { given : option str; family : option str }.

Record Message := {
  msg_title : option (list str);
  msg_author : option (list Author);
  msg_publisher : option str
}.

Definition empty_message : Message :=
  {| msg_title := None; msg_author := None; msg_publisher := None |}.

(** What the HTTP request of [query_crossref_by_doi] comes back with. *)
Inductive response :=
  | NetworkError (reason : str)
  | BadStatus (reason : str)
  | BadBody (reason : str)
  | Body (message : option Message).

(** The network: the reply to a request for an identifier, sent with an
    optional contact address. *)
Definition network := str → option str → response.

(** The reason of a failed lookup: network error, bad status or malformed
    body. *)
Definition failure_reason (r : response) : option str :=
  match r with
  | NetworkError reason | BadStatus reason | BadBody reason => Some reason
  | Body _ => None
  end.

Definition query_crossref_by_doi (net : network) (doi : str) (email : option str)
  : result Message :=
  match net doi email with
  | NetworkError r => Raise (RequestError r)
  | BadStatus r => Raise (RequestError r)
  | BadBody r => Raise (RequestError r)
  | Body data => Return (default empty_message data)
  end.

(** ** Composing the name and resolving a document *)

(** The fields under resolution, the provenance log, and the identifiers
    requested from the registry so far. *)
Record State := {
  title : option str;
  first_author : option str;
  publisher : option str;
  log : list str;
  requests : list str
}.

Definition initial : State :=
  {| title := None; first_author := None; publisher := None;
     log := []; requests := [] |}.

Definition set_title (v : str) (st : State) : State :=
  {| title := Some v; first_author := first_author st; publisher := publisher st;
     log := log st; requests := requests st |}.

Definition set_first_author (v : str) (st : State) : State :=
  {| title := title st; first_author := Some v; publisher := publisher st;
     log := log st; requests := requests st |}.

Definition set_publisher (v : str) (st : State) : State :=
  {| title := title st; first_author := first_author st; publisher := Some v;
     log := log st; requests := requests st |}.

(** [log.append(entry)]. *)
Definition log_append (entry : str) (st : State) : State :=
  {| title := title st; first_author := first_author st; publisher := publisher st;
     log := log st ++ [entry]; requests := requests st |}.

Definition sent (doi : str) (st : State) : State :=
  {| title := title st; first_author := first_author st; publisher := publisher st;
     log := log st; requests := requests st ++ [doi] |}.

(** Truthiness of a list. *)
Definition nonempty {A} (o : option (list A)) : bool :=
  match o with Some (_ :: _) => true | _ => false end.

(** The three assignments from a Crossref message. *)
Definition from_message (msg : Message) (st : State) : State :=
  let st :=
    match msg_title msg with
    | Some (t0 :: _) =>
        if negb (truthy (title st))
        then log_append (lit "title from Crossref") (set_title t0 st)
        else st
    | _ => st
    end in
  let st :=
    match msg_author msg with
    | Some (a0 :: _) =>
        if negb (truthy (first_author st))
        then log_append (lit "author from Crossref")
               (set_first_author
                  (strip (join (lit " ") [default [] (given a0); default [] (family a0)]))
                  st)
        else st
    | _ => st
    end in
  let st :=
    match msg_publisher msg with
    | Some p =>
        if (negb (truthy (publisher st)) && truthy_str p)%bool
        then log_append (lit "publisher from Crossref") (set_publisher p st)
        else st
    | None => st
    end in
  st.

(** Step 1, the body of [if not local_only]: find the identifier, query
    Crossref, and catch whatever the query raises. *)
Definition stage_crossref (net : network) (email : option str) (text_first : str)
    (st : State) : State :=
  let doi := find_doi (Some text_first) in
  match doi with
  | Some d =>
      if truthy_str d then
        let st := log_append (lit "found DOI " ++ d) st in
        let st := sent d st in
        match query_crossref_by_doi net d email with
        | Return msg => from_message msg st
        | Raise e => log_append (lit "Crossref failed: " ++ exn_message e) st
        end
      else st
  | None => st
  end.

(** Step 2: the embedded metadata. *)
Definition stage_embedded (doc : Document) (st : State) : State :=
  if negb (truthy (title st) && truthy (first_author st)) then
    let meta := default {| meta_title := None; meta_author := None |} (metadata doc) in
    let st :=
      if (negb (truthy (title st)) && truthy (meta_title meta))%bool
      then log_append (lit "title from embedded metadata")
             (set_title (strip (default [] (meta_title meta))) st)
      else st in
    let st :=
      if (negb (truthy (first_author st)) && truthy (meta_author meta))%bool
      then log_append (lit "author from embedded metadata")
             (set_first_author (strip (default [] (meta_author meta))) st)
      else st in
    st
  else st.

(** Step 3: the final fallbacks. *)
Definition stage_fallback (pdf_path : Path) (st : State) : State :=
  let st :=
    if negb (truthy (title st))
    then log_append (lit "fallback: title from filename") (set_title (stem pdf_path) st)
    else st in
  let st :=
    if negb (truthy (first_author st))
    then log_append (lit "fallback: unknown author")
           (set_first_author (lit "Unknown Author") st)
    else st in
  let st :=
    if negb (truthy (publisher st))
    then log_append (lit "fallback: unknown publisher")
           (set_publisher (lit "Unknown Publisher") st)
    else st in
  st.

(** The state of [process_pdf] after steps 1 and 2. *)
Definition gathered (net : network) (doc : Document) (local_only : bool)
    (email : option str) : State :=
  let text_first := extract_visible_text doc 2 in
  let st := initial in
  let st := if negb local_only then stage_crossref net email text_first st else st in
  stage_embedded doc st.

(** The state of [process_pdf] when it reaches [compose_name]. *)
Definition resolve (net : network) (pdf_path : Path) (doc : Document)
    (local_only : bool) (email : option str) : State :=
  stage_fallback pdf_path (gathered net doc local_only email).

Section Naming.

(** [to_initials] reads Unicode tables ([\b], [isalpha], [upper]) and can
    leave the code points below 256 (the upper case of y with diaeresis is
    U+0178), so it is not written out over [ascii]: the functions below take
    it as given, and what is proved of them holds whatever it returns. *)
Variable to_initials : str → str.

Definition compose_name (publisher title first_author : option str) : str :=
  let pub := sanitize (ArgStr (or_else publisher (lit "Unknown Publisher"))) in
  let ttl := sanitize (ArgStr (or_else title (lit "Untitled"))) in
  let auth_initials := to_initials (or_else first_author (lit "Unknown Author")) in
  truncate_filename
    (pub ++ lit " - " ++ ttl ++ lit " - " ++ auth_initials ++ lit ".pdf") 180.

(** [process_pdf]: [opened] is what [fitz.open] gives for [pdf_path]. *)
Definition process_pdf (net : network) (pdf_path : Path) (opened : result Document)
    (local_only : bool) (email : option str) : result (str * str * str) :=
  match opened with
  | Raise e => Raise (RuntimeError (lit "Cannot open PDF: " ++ exn_message e))
  | Return doc =>
      let st := resolve net pdf_path doc local_only email in
      let new_name := compose_name (publisher st) (title st) (first_author st) in
      Return (name pdf_path, new_name,
              or_else (Some (join (lit "; ") (log st))) (lit "ok"))
  end.

End Naming.

(** ** Collecting the documents *)

(** [c.lower()] for a character below 256: the letters [A-Z], and the
    upper-case letters from A-grave to thorn but for the multiplication sign,
    move up by 32. *)
Definition lower_char (c : ascii) : ascii :=
  if (is_upper_az c || between 192 214 c || between 216 222 c)%bool
  then ascii_of_N (code c + 32) else c.

Definition lower (s : str) : str := lower_char <$> s.

(** What [gather_pdfs] asks of the directory tree: [p.is_file()],
    [p.is_dir()] and [sorted(p.glob(pattern))]. *)
Record Tree := {
  is_file : Path → bool;
  is_dir : Path → bool;
  sorted_glob : Path → str → list Path
}.

Definition gather_pdfs (tree : Tree) (inputs : list Path) (recursive : bool)
  : list Path :=
  fold_left
    (λ pdfs inp,
       if (is_file tree inp && bool_decide (lower (suffix inp) = lit ".pdf"))%bool
       then pdfs ++ [inp]
       else if is_dir tree inp then
         let globber := if recursive then lit "**/*.pdf" else lit "*.pdf" in
         pdfs ++ sorted_glob tree inp globber
       else pdfs)
    inputs [].

(** What one input contributes. *)
Definition contribution (tree : Tree) (recursive : bool) (inp : Path) : list Path :=
  if (is_file tree inp && bool_decide (lower (suffix inp) = lit ".pdf"))%bool
  then [inp]
  else if is_dir tree inp
       then sorted_glob tree inp (if recursive then lit "**/*.pdf" else lit "*.pdf")
       else [].

(** ** The batch *)

(** The line printed for a document, by its kind: [SKIP], [DRY], [OK ]
    (on standard output) and [ERR] (on standard error). *)
Inductive outcome :=
  | Skipped (src why : str)
  | Previewed (src new_name why : str)
  | Renamed (src target why : str)
  | Failed (src : str) (e : exn).

(** The file name a line starts with. *)
Definition outcome_src (o : outcome) : str :=
  match o with
  | Skipped src _ | Previewed src _ _ | Renamed src _ _ | Failed src _ => src
  end.

Definition is_renamed (o : outcome) : bool :=
  match o with Renamed _ _ _ => true | _ => false end.

(** The state of the loop of [main]: the file system, the counter
    [renamed] and the lines printed so far. *)
Record Run := { disk : FS; renamed : nat; printed : list outcome }.

Section Main.

Variable to_initials : str → str.
Variable net : network.

(** [fitz.open] on a path, in the file system as it is at that moment. *)
Variable opener : FS → Path → result Document.

(** The body of [for p in pdfs], with the [try] around it. *)
Definition main_step (fuel : nat) (dry_run local_only : bool) (email : option str)
    (run : Run) (p : Path) : option Run :=
  let say o := {| disk := disk run; renamed := renamed run;
                  printed := printed run ++ [o] |} in
  match process_pdf to_initials net p (opener (disk run) p) local_only email with
  | Raise e => Some (say (Failed (name p) e))
  | Return (src_name, new_name, why) =>
      if decide (src_name = new_name) then Some (say (Skipped src_name why))
      else if dry_run then Some (say (Previewed src_name new_name why))
      else
        match safe_rename fuel (disk run) p new_name false with
        | None => None
        | Some (Raise e, fs) =>
            Some {| disk := fs; renamed := renamed run;
                    printed := printed run ++ [Failed (name p) e] |}
        | Some (Return target, fs) =>
            Some {| disk := fs; renamed := renamed run + 1;
                    printed := printed run ++ [Renamed src_name (name target) why] |}
        end
  end.

(** The loop of [main] over the documents gathered. *)
Fixpoint main_loop (fuel : nat) (dry_run local_only : bool) (email : option str)
    (pdfs : list Path) (run : Run) : option Run :=
  match pdfs with
  | [] => Some run
  | p :: rest =>
      match main_step fuel dry_run local_only email run p with
      | Some run' => main_loop fuel dry_run local_only email rest run'
      | None => None
      end
  end.

End Main.

(** ** Initials

    The patterns of [to_initials] use the word boundary [\b], so the matcher
    is written again with the character before the position at hand. *)

Module Rx.

(** [str.isalpha] and the class [\w] of [re] on a character below 256. *)
Definition is_alpha (c : ascii) : bool :=
  (is_upper_az c || is_lower_az c
   || (code c =? 170)%N || (code c =? 181)%N || (code c =? 186)%N
   || between 192 214 c || between 216 246 c || between 248 255 c)%bool.

Definition is_alnum (c : ascii) : bool :=
  (is_alpha c || is_digit c
   || (code c =? 178)%N || (code c =? 179)%N || (code c =? 185)%N
   || between 188 190 c)%bool.

Definition is_word (c : ascii) : bool := (is_alnum c || (code c =? 95)%N)%bool.

Inductive atom :=
  | Cls (p : ascii → bool) (lo : nat) (hi : option nat)
  | WordBoundary.

Definition word_side (o : option ascii) : bool :=
  match o with Some c => is_word c | None => false end.

(** [\b] between the character before and the character after. *)
Definition at_boundary (prev next : option ascii) : bool :=
  xorb (word_side prev) (word_side next).

(** The character before the position reached after [k] characters of [s]. *)
Definition before (prev : option ascii) (s : str) (k : nat) : option ascii :=
  match k with
  | 0 => prev
  | S j => s !! j
  end.

(** Match [pat] at the start of [s], with [prev] just before it. *)
Fixpoint match_at (pat : list atom) (prev : option ascii) (s : str) : option nat :=
  match pat with
  | [] => Some 0
  | WordBoundary :: rest =>
      if at_boundary prev (head s) then match_at rest prev s else None
  | Cls p lo hi :: rest =>
      Re.backtrack (λ k, match_at rest (before prev s k) (drop k s)) lo
                   (Re.cap hi (Re.run p s))
  end.

(** [re.sub(pat, repl, s)] for patterns that match no empty string. *)
Fixpoint sub_go (pat : list atom) (repl : str) (skip : nat) (prev : option ascii)
    (s : str) : str :=
  match s with
  | [] => []
  | c :: t =>
      match skip with
      | S k => sub_go pat repl k (Some c) t
      | 0 =>
          match match_at pat prev s with
          | Some (S n) => repl ++ sub_go pat repl n (Some c) t
          | _ => c :: sub_go pat repl 0 (Some c) t
          end
      end
  end.

Definition sub (pat : list atom) (repl : str) (s : str) : str :=
  sub_go pat repl 0 None s.

(** [re.split(pat, s)] for patterns that match no empty string; [cur] is
    the piece being read. *)
Fixpoint split_go (pat : list atom) (skip : nat) (prev : option ascii) (cur : str)
    (s : str) : list str :=
  match s with
  | [] => [cur]
  | c :: t =>
      match skip with
      | S k => split_go pat k (Some c) cur t
      | 0 =>
          match match_at pat prev s with
          | Some (S n) => cur :: split_go pat n (Some c) [] t
          | _ => split_go pat 0 (Some c) (cur ++ [c]) t
          end
      end
  end.

Definition split (pat : list atom) (s : str) : list str :=
  split_go pat 0 None [] s.

Definition chr (c : ascii) : atom := Cls (λ x, bool_decide (x = c)) 1 (Some 1).

(** A letter of the pattern under [re.I]. *)
Definition chr_i (c : ascii) : atom :=
  Cls (Re.ignorecase (λ x, bool_decide (x = c))) 1 (Some 1).

End Rx.

(** [\b[a-zA-Z0-9._%+-]+@[a-zA-Z0-9.-]+\.[A-Za-z]{2,}\b]. *)
Definition EMAIL_PATTERN : list Rx.atom :=
  [ Rx.WordBoundary;
    Rx.Cls (λ c, is_lower_az c || is_upper_az c || is_digit c || mem c (lit "._%+-"))%bool
           1 None;
    Rx.chr "@";
    Rx.Cls (λ c, is_lower_az c || is_upper_az c || is_digit c || mem c (lit ".-"))%bool
           1 None;
    Rx.chr ".";
    Rx.Cls (λ c, is_upper_az c || is_lower_az c)%bool 2 None;
    Rx.WordBoundary ].

(** [\bORCID\b[:\s]*\S+] with [re.I]. *)
Definition ORCID_PATTERN : list Rx.atom :=
  [ Rx.WordBoundary;
    Rx.chr_i "O"; Rx.chr_i "R"; Rx.chr_i "C"; Rx.chr_i "I"; Rx.chr_i "D";
    Rx.WordBoundary;
    Rx.Cls (λ c, bool_decide (c = ":"%char) || is_space c)%bool 0 None;
    Rx.Cls (λ c, negb (is_space c)) 1 None ].

(** [[\s\-]+]. *)
Definition TOKEN_BREAK : list Rx.atom :=
  [ Rx.Cls (λ c, is_space c || bool_decide (c = "-"%char))%bool 1 None ].

(** A string by its code points. *)
Definition points (s : str) : list N := code <$> s.

(** [c.upper()] for a character below 256, in code points: the micro sign
    and y with diaeresis leave the range, and sharp s becomes two letters. *)
Definition upper_points (c : ascii) : list N :=
  if is_lower_az c then [code c - 32]%N
  else if (code c =? 181)%N then [924%N]
  else if (code c =? 223)%N then [83%N; 83%N]
  else if (code c =? 255)%N then [376%N]
  else if (between 224 246 c || between 248 254 c)%bool then [code c - 32]%N
  else [code c].

(** [t[0]] when [t and t[0].isalpha()]. *)
Definition initial_of (t : str) : option ascii :=
  match t with
  | c :: _ => if Rx.is_alpha c then Some c else None
  | [] => None
  end.

(** [to_initials], with its result in code points. *)
Definition to_initials (name : str) : list N :=
  if negb (truthy_str name) then points (lit "NA")
  else
    let name := Rx.sub EMAIL_PATTERN (lit " ") name in
    let name := Rx.sub ORCID_PATTERN (lit " ") name in
    let tokens := Rx.split TOKEN_BREAK (strip name) in
    let initials := omap initial_of tokens in
    match initials with
    | [] => points (lit "NA")
    | _ :: _ => initials ≫= upper_points
    end.

(** The code points of capital and caseless letters that [upper] gives for
    the letters below 256. *)
Definition capital_point (n : N) : bool :=
  ((65 <=? n) && (n <=? 90) || (n =? 170) || (n =? 186)
   || (192 <=? n) && (n <=? 214) || (216 <=? n) && (n <=? 222)
   || (n =? 376) || (n =? 924))%N%bool.

(** ** Notions used in the statements *)

(** The names [with_name] accepts: not empty, without a separator, not [.]. *)
Definition valid_name (nm : str) : bool :=
  (truthy_str nm && negb (mem "/"%char nm) && negb (bool_decide (nm = lit ".")))%bool.

(** The path next to [p] with the final component [nm]. *)
Definition sibling (p : Path) (nm : str) : Path :=
  {| parent := parent p; name := nm |}.

(** No two neighbouring characters are both whitespace. *)
Definition no_whitespace_run (s : str) : Prop :=
  ∀ i c d, s !! i = Some c → s !! S i = Some d →
           ¬ (is_space c = true ∧ is_space d = true).

Fixpoint single_spaced (s : str) : bool :=
  match s with
  | c :: (d :: _) as t => negb (is_space c && is_space d) && single_spaced t
  | _ => true
  end.

(** The last class of the pattern under [re.I]. *)
Definition tail_class : ascii → bool := Re.ignorecase DOI_TAIL_CLASS.

(** The entries a local-only resolution can log. *)
Definition local_entries : list str :=
  [ lit "title from embedded metadata"; lit "author from embedded metadata";
    lit "fallback: title from filename"; lit "fallback: unknown author";
    lit "fallback: unknown publisher" ].

(** The strings [sanitize] has nothing to do on: no forbidden character, no
    two neighbouring whitespace characters, no whitespace but the space, and
    none at either end. *)
Definition tidy (s : str) : Prop :=
  (∀ c, c ∈ INVALID_CHARS → c ∉ s)
  ∧ no_whitespace_run s
  ∧ (∀ c, c ∈ s → is_space c = true → c = " "%char)
  ∧ (∀ c, head s = Some c → is_space c = false)
  ∧ (∀ c, last s = Some c → is_space c = false).

(** ** Sample inputs *)

Definition in_papers (nm : string) : Path :=
  {| parent := lit "/papers"; name := lit nm |}.

(** A directory with [draft.pdf] and [Foo.pdf], and the same directory with
    [Foo (1).pdf] as well. *)
Definition papers_one : FS := {[ in_papers "draft.pdf"; in_papers "Foo.pdf" ]}.
Definition papers_two : FS :=
  {[ in_papers "draft.pdf"; in_papers "Foo.pdf"; in_papers "Foo (1).pdf" ]}.

(** A one-page document whose text cites an identifier and whose embedded
    title is blank. *)
Definition cited_doc : Document :=
  {| pages := [Some (lit "see 10.1000/xyz123.")];
     metadata := Some {| meta_title := Some (lit "  "); meta_author := None |} |}.

(** A network on which every request times out. *)
Definition dead_net : network := λ _ _, NetworkError (lit "timed out").

(** * Properties *)

(** ** Stripping *)

Section Strip.

Variable p : ascii → bool.

Lemma lstrip_by_suffix s : ∃ l, s = l ++ lstrip_by p s ∧ Forall (λ c, p c = true) l.
Proof.
  induction s as [|c t [l [IH Hl]]]; simpl.
  - by exists [].
  - destruct (p c) eqn:Hc.
    + exists (c :: l). split; [simpl; congruence | by constructor].
    + by exists [].
Qed.

Lemma lstrip_by_head s c t : lstrip_by p s = c :: t → p c = false.
Proof.
  induction s as [|x s IH]; simpl; [done|].
  destruct (p x) eqn:Hx; [done|]. by intros [= <- _].
Qed.

Lemma lstrip_by_length s : length (lstrip_by p s) ≤ length s.
Proof. induction s as [|x s IH]; simpl; [lia|]. destruct (p x); simpl; lia. Qed.

Lemma lstrip_by_snoc s d : p d = false → lstrip_by p (s ++ [d]) = lstrip_by p s ++ [d].
Proof.
  intros Hd. induction s as [|x s IH]; simpl.
  - by rewrite Hd.
  - by destruct (p x).
Qed.

Lemma lstrip_by_all s : Forall (λ c, p c = true) s → lstrip_by p s = [].
Proof. induction 1 as [|x s Hx _ IH]; simpl; [done|]. by rewrite Hx. Qed.

Lemma lstrip_by_id c t : p c = false → lstrip_by p (c :: t) = c :: t.
Proof. simpl. by intros ->. Qed.

Lemma rstrip_by_prefix s : ∃ l, s = rstrip_by p s ++ l ∧ Forall (λ c, p c = true) l.
Proof.
  unfold rstrip_by.
  destruct (lstrip_by_suffix (reverse s)) as [l [Hl Hall]].
  exists (reverse l). split.
  - rewrite <- reverse_app, <- Hl. by rewrite reverse_involutive.
  - by apply Forall_reverse.
Qed.

Lemma rstrip_by_last s c : last (rstrip_by p s) = Some c → p c = false.
Proof.
  unfold rstrip_by. rewrite last_reverse.
  destruct (lstrip_by p (reverse s)) as [|x t] eqn:E; simpl; [done|].
  intros [= <-]. by eapply lstrip_by_head.
Qed.

Lemma rstrip_by_head s c : p c = false → head s = Some c → head (rstrip_by p s) = Some c.
Proof.
  destruct s as [|x t]; simpl; [done|]. intros Hc [= ->].
  unfold rstrip_by. rewrite reverse_cons, lstrip_by_snoc by done.
  by rewrite reverse_app.
Qed.

Lemma rstrip_by_length s : length (rstrip_by p s) ≤ length s.
Proof.
  unfold rstrip_by. rewrite length_reverse.
  etrans; [apply lstrip_by_length|]. by rewrite length_reverse.
Qed.

Lemma rstrip_by_snoc_keep s d : p d = false → rstrip_by p (s ++ [d]) = s ++ [d].
Proof.
  intros Hd. unfold rstrip_by. rewrite reverse_app. simpl.
  rewrite Hd. by rewrite reverse_cons, reverse_involutive.
Qed.

Lemma rstrip_by_snoc_drop s d : p d = true → rstrip_by p (s ++ [d]) = rstrip_by p s.
Proof.
  intros Hd. unfold rstrip_by. rewrite reverse_app. simpl. by rewrite Hd.
Qed.

Lemma rstrip_by_app_drop s l :
  Forall (λ c, p c = true) l → rstrip_by p (s ++ l) = rstrip_by p s.
Proof.
  induction l as [|d l IH] using rev_ind; intros Hl.
  - by rewrite app_nil_r.
  - apply Forall_app in Hl as [Hl Hd]. rewrite app_assoc, rstrip_by_snoc_drop.
    + by apply IH.
    + by inversion Hd.
Qed.

End Strip.

Lemma strip_infix s : ∃ l1 l2, s = l1 ++ strip s ++ l2.
Proof.
  unfold strip.
  destruct (lstrip_by_suffix is_space s) as [l1 [H1 _]].
  destruct (rstrip_by_prefix is_space (lstrip_by is_space s)) as [l2 [H2 _]].
  exists l1, l2. by rewrite <- H2.
Qed.

Lemma strip_head s c : head (strip s) = Some c → is_space c = false.
Proof.
  unfold strip. destruct (lstrip_by is_space s) as [|x t] eqn:E.
  - done.
  - pose proof (lstrip_by_head _ _ _ _ E) as Hx.
    rewrite (rstrip_by_head is_space (x :: t) x Hx eq_refl). by intros [= <-].
Qed.

Lemma strip_last s c : last (strip s) = Some c → is_space c = false.
Proof. apply rstrip_by_last. Qed.

(** ** Replacing characters and collapsing whitespace *)

Lemma elem_of_replace c text ch new :
  c ∈ replace text ch new ↔ (c ∈ text ∧ c ≠ ch) ∨ (ch ∈ text ∧ c ∈ new).
Proof.
  unfold replace. rewrite list_elem_of_bind. split.
  - intros (x & Hc & Hx). destruct (decide (x = ch)) as [->|Hne].
    + by right.
    + left. apply list_elem_of_singleton in Hc as ->. done.
  - intros [[Hc Hne]|[Hch Hc]].
    + exists c. split; [|done]. destruct (decide (c = ch)); [done|]. by left.
    + exists ch. split; [|done]. by destruct (decide (ch = ch)).
Qed.

Lemma replace_all_keeps_out c chs new text :
  c ∉ new → c ∉ text →
  c ∉ fold_left (λ text ch, replace text ch new) chs text.
Proof.
  intros Hnew. revert text. induction chs as [|ch chs IH]; intros text Htext; simpl.
  - done.
  - apply IH. rewrite elem_of_replace. tauto.
Qed.

Lemma replace_all_removes c chs new text :
  c ∈ chs → c ∉ new →
  c ∉ fold_left (λ text ch, replace text ch new) chs text.
Proof.
  intros Hc Hnew. revert text. induction chs as [|ch chs IH]; intros text; simpl.
  - by apply not_elem_of_nil in Hc.
  - destruct (decide (c = ch)) as [->|Hne].
    + apply replace_all_keeps_out; [done|]. rewrite elem_of_replace. tauto.
    + apply IH. by apply elem_of_cons in Hc as [?|?].
Qed.

Lemma single_spaced_cons c d t :
  single_spaced (c :: d :: t)
  = (negb (is_space c && is_space d) && single_spaced (d :: t))%bool.
Proof. reflexivity. Qed.

Lemma single_spaced_no_run s : single_spaced s = true → no_whitespace_run s.
Proof.
  induction s as [|c t IH]; intros Hs i x y Hx Hy; [done|].
  destruct t as [|d t]; [by destruct i|].
  rewrite single_spaced_cons in Hs. apply andb_true_iff in Hs as [Hcd Ht].
  destruct i as [|i]; simpl in *.
  - injection Hx as <-. injection Hy as <-. intros [Hc Hd].
    by rewrite Hc, Hd in Hcd.
  - by apply (IH Ht i x y).
Qed.

Lemma no_whitespace_run_infix l1 s l2 :
  no_whitespace_run (l1 ++ s ++ l2) → no_whitespace_run s.
Proof.
  intros H i c d Hc Hd. apply (H (length l1 + i) c d).
  - rewrite lookup_app_r by lia.
    replace (length l1 + i - length l1) with i by lia.
    rewrite lookup_app_l; [done | by eapply lookup_lt_Some].
  - rewrite lookup_app_r by lia.
    replace (S (length l1 + i) - length l1) with (S i) by lia.
    rewrite lookup_app_l; [done | by eapply lookup_lt_Some].
Qed.

Lemma match_whitespace_run s :
  Re.match_here WHITESPACE_RUN s
  = if Re.run is_space s <? 1 then None else Some (Re.run is_space s + 0).
Proof. unfold WHITESPACE_RUN. simpl. by destruct (Re.run is_space s). Qed.

Lemma sub_go_skip_run pat repl p t :
  Re.sub_go pat repl (Re.run p t) t = Re.sub_go pat repl 0 (lstrip_by p t).
Proof.
  induction t as [|c t IH]; simpl; [done|].
  destruct (p c); simpl; [apply IH | done].
Qed.

Lemma sub_whitespace_other repl c t :
  is_space c = false →
  Re.sub_go WHITESPACE_RUN repl 0 (c :: t) = c :: Re.sub_go WHITESPACE_RUN repl 0 t.
Proof.
  intros Hc. cbn [Re.sub_go]. rewrite match_whitespace_run. simpl. by rewrite Hc.
Qed.

Lemma sub_whitespace_space repl c t :
  is_space c = true →
  Re.sub_go WHITESPACE_RUN repl 0 (c :: t)
  = repl ++ Re.sub_go WHITESPACE_RUN repl 0 (lstrip_by is_space t).
Proof.
  intros Hc. cbn [Re.sub_go]. rewrite match_whitespace_run. simpl. rewrite Hc. simpl.
  by rewrite Nat.add_0_r, sub_go_skip_run.
Qed.

Lemma sub_whitespace_nil repl : Re.sub_go WHITESPACE_RUN repl 0 [] = [].
Proof. done. Qed.

(** The shape of [re.sub(r'\s+', ' ', s)], by induction on the length. *)
Lemma sub_whitespace_shape n s :
  length s ≤ n →
  let out := Re.sub WHITESPACE_RUN (lit " ") s in
  single_spaced out = true
  ∧ (∀ c, c ∈ out → c ∈ s ∨ c = " "%char)
  ∧ (∀ c t, s = c :: t → is_space c = false → head out = Some c).
Proof.
  unfold Re.sub. revert s. induction n as [|n IH]; intros s Hn.
  - destruct s; [|simpl in Hn; lia]. rewrite sub_whitespace_nil.
    split_and!; [done| |done]. intros c Hc. by apply not_elem_of_nil in Hc.
  - destruct s as [|c t]; [rewrite sub_whitespace_nil; split_and!; try done;
                             intros c Hc; by apply not_elem_of_nil in Hc|].
    simpl in Hn. destruct (is_space c) eqn:Hc.
    + rewrite sub_whitespace_space by done.
      pose proof (lstrip_by_length is_space t) as Hlen.
      destruct (IH (lstrip_by is_space t) ltac:(lia)) as (Hs & Hin & Hhd).
      destruct (lstrip_by_suffix is_space t) as [l [Hl _]].
      split_and!.
      * destruct (lstrip_by is_space t) as [|d t'] eqn:E; [by rewrite sub_whitespace_nil|].
        pose proof (lstrip_by_head _ _ _ _ E) as Hd.
        specialize (Hhd d t' eq_refl Hd).
        destruct (Re.sub_go WHITESPACE_RUN (lit " ") 0 (d :: t')) as [|x out] eqn:Eo;
          [done|]. simpl in Hhd. injection Hhd as ->.
        change (lit " " ++ d :: out) with (" "%char :: d :: out).
        rewrite single_spaced_cons, Hd, andb_false_r. exact Hs.
      * intros x Hx. change (lit " " ++ ?o) with (" "%char :: o) in Hx.
        apply elem_of_cons in Hx as [->|Hx]; [by right|].
        destruct (Hin x Hx) as [Hx' | ->]; [|by right].
        left. rewrite Hl. apply elem_of_cons. right. apply elem_of_app. by right.
      * intros c' t' [= <- <-] Hc'. congruence.
    + rewrite sub_whitespace_other by done.
      destruct (IH t ltac:(lia)) as (Hs & Hin & Hhd).
      split_and!.
      * destruct (Re.sub_go WHITESPACE_RUN (lit " ") 0 t) as [|x out] eqn:Eo; [done|].
        rewrite single_spaced_cons, Hc. exact Hs.
      * intros x Hx. apply elem_of_cons in Hx as [->|Hx]; [left; by left|].
        destruct (Hin x Hx) as [Hx' | ->]; [|by right]. left. by right.
      * by intros c' t' [= <- <-] _.
Qed.

(** C9: the value of [sanitize] holds none of the characters
    less-than, greater-than, colon, double quote, slash, backslash, bar,
    question mark, star; it holds no two neighbouring whitespace characters, and
    neither starts nor ends with whitespace; [sanitize] is a total function,
    and [None] is mapped to the empty string. *)
Theorem sanitize_clean (text : text_arg) :
  (∀ c, c ∈ lit "<>:" ++ ["034"%char] ++ lit "/\|?*" → c ∉ sanitize text)
  ∧ no_whitespace_run (sanitize text)
  ∧ (∀ c, head (sanitize text) = Some c → is_space c = false)
  ∧ (∀ c, last (sanitize text) = Some c → is_space c = false)
  ∧ sanitize ArgNone = [].
Proof.
  split_and!.
  - intros c Hc Hin. unfold sanitize in Hin.
    set (raw := match text with ArgStr s => s | ArgOther shown => shown | ArgNone => [] end) in Hin.
    set (cleaned := fold_left _ INVALID_CHARS raw) in Hin.
    destruct (strip_infix (Re.sub WHITESPACE_RUN (lit " ") cleaned)) as (l1 & l2 & Hs).
    assert (c ∈ Re.sub WHITESPACE_RUN (lit " ") cleaned) as Hsub.
    { rewrite Hs. apply elem_of_app. right. apply elem_of_app. by left. }
    destruct (sub_whitespace_shape _ cleaned (le_n _)) as (_ & Hfrom & _).
    destruct (Hfrom c Hsub) as [Hcl | ->].
    + revert Hcl. apply replace_all_removes.
      * revert Hc. unfold INVALID_CHARS. rewrite !elem_of_app, !elem_of_cons. simpl.
        rewrite !elem_of_cons. tauto.
      * unfold REPLACEMENT. simpl. rewrite elem_of_cons.
        intros [->|Hn]; [|by apply not_elem_of_nil in Hn].
        revert Hc. simpl. rewrite !elem_of_cons. intros Hc.
        repeat (destruct Hc as [Hc|Hc]; [discriminate Hc|]).
        by apply not_elem_of_nil in Hc.
    + revert Hc. simpl. rewrite !elem_of_cons. intros Hc.
      repeat (destruct Hc as [Hc|Hc]; [discriminate Hc|]).
      by apply not_elem_of_nil in Hc.
  - unfold sanitize.
    set (cleaned := fold_left _ INVALID_CHARS _).
    destruct (strip_infix (Re.sub WHITESPACE_RUN (lit " ") cleaned)) as (l1 & l2 & Hs).
    apply (no_whitespace_run_infix l1 _ l2). rewrite <- Hs.
    apply single_spaced_no_run.
    by destruct (sub_whitespace_shape _ cleaned (le_n _)) as (? & _ & _).
  - intros c. apply strip_head.
  - intros c. apply strip_last.
  - reflexivity.
Qed.

(** ** The matcher against the language of a pattern *)

Module ReFacts.
Import Re.

Lemma run_le p s : run p s ≤ length s.
Proof. induction s as [|c t IH]; simpl; [lia|]. destruct (p c); simpl; lia. Qed.

Lemma run_take p s k : k ≤ run p s → Forall (λ c, p c = true) (take k s).
Proof.
  revert k. induction s as [|c t IH]; intros k Hk; simpl in *.
  - destruct k; constructor.
  - destruct k as [|k]; [constructor|]. simpl.
    destruct (p c) eqn:Hc; [|lia]. constructor; [done|]. apply IH. lia.
Qed.

Lemma run_app_ge p u s : Forall (λ c, p c = true) u → length u ≤ run p (u ++ s).
Proof. induction 1 as [|c u Hc _ IH]; simpl; [lia|]. rewrite Hc. lia. Qed.

Lemma run_app_stop p u c s :
  Forall (λ c, p c = true) u → p c = false → run p (u ++ c :: s) = length u.
Proof.
  intros Hu Hc. induction Hu as [|x u Hx _ IH]; simpl.
  - by rewrite Hc.
  - by rewrite Hx, IH.
Qed.

Lemma cap_le h n : cap h n ≤ n.
Proof. destruct h; simpl; lia. Qed.

Lemma cap_within h n k : k ≤ n → within h k → k ≤ cap h n.
Proof. destruct h; simpl; lia. Qed.

Lemma within_cap h n k : k ≤ cap h n → within h k.
Proof. destruct h; simpl; lia. Qed.

(** What [backtrack] returns is the first success counting down from [n]. *)
Lemma backtrack_Some cont low n r :
  backtrack cont low n = Some r →
  ∃ k m, low ≤ k ∧ k ≤ n ∧ cont k = Some m ∧ r = k + m
         ∧ ∀ j, k < j → j ≤ n → cont j = None.
Proof.
  induction n as [|n IH]; simpl.
  - destruct (0 <? low) eqn:E; [done|]. apply Nat.ltb_ge in E.
    destruct (cont 0) as [m|] eqn:Ec; [|done]. intros [= <-].
    exists 0, m. split_and!; try done. intros; lia.
  - destruct (S n <? low) eqn:E; [done|]. apply Nat.ltb_ge in E.
    destruct (cont (S n)) as [m|] eqn:Ec.
    + intros [= <-]. exists (S n), m. split_and!; try done. intros; lia.
    + intros H. destruct (IH H) as (k & m & ? & ? & ? & ? & Hmax).
      exists k, m. split_and!; try done; [lia|].
      intros j ? ?. destruct (decide (j = S n)) as [->|]; [done|]. apply Hmax; lia.
Qed.

Lemma backtrack_is_Some cont low n k :
  low ≤ k → k ≤ n → is_Some (cont k) → is_Some (backtrack cont low n).
Proof.
  intros Hlow. induction n as [|n IH]; intros Hk Hc; simpl.
  - assert (k = 0) as -> by lia. replace (0 <? low) with false
      by (symmetry; apply Nat.ltb_ge; lia).
    destruct Hc as [m ->]. eauto.
  - replace (S n <? low) with false by (symmetry; apply Nat.ltb_ge; lia).
    destruct (cont (S n)) as [m|] eqn:Ec; [eauto|].
    apply IH; [|done]. destruct (decide (k = S n)) as [->|]; [|lia].
    rewrite Ec in Hc. by destruct Hc.
Qed.

(** When no shorter repetition can succeed, only the longest is left. *)
Lemma backtrack_top cont low n :
  (∀ j, j < n → cont j = None) →
  backtrack cont low n = if n <? low then None else (λ m, n + m) <$> cont n.
Proof.
  intros Hnone. destruct n as [|n]; simpl.
  - destruct (0 <? low); [done|]. by destruct (cont 0).
  - destruct (S n <? low) eqn:E; [done|].
    destruct (cont (S n)) eqn:Ec; [done|]. simpl.
    clear Ec E. induction n as [|n IH]; simpl.
    + destruct (0 <? low); [done|]. by rewrite Hnone by lia.
    + destruct (S n <? low); [done|]. rewrite Hnone by lia.
      apply IH. intros; apply Hnone; lia.
Qed.

(** Soundness: a reported match is a prefix in the pattern's language. *)
Lemma match_here_sound pat s n :
  match_here pat s = Some n → n ≤ length s ∧ matches pat (take n s).
Proof.
  revert s n. induction pat as [|it rest IH]; intros s n; simpl.
  - intros [= <-]. split; [lia|]. rewrite take_0. constructor.
  - intros H. apply backtrack_Some in H as (k & m & Hlo & Hk & Hm & -> & _).
    apply IH in Hm as [Hlen Hm]. rewrite length_drop in Hlen.
    pose proof (cap_le (hi it) (run (cls it) s)).
    pose proof (run_le (cls it) s).
    split; [lia|].
    replace (take (k + m) s) with (take k s ++ take m (drop k s))
      by (by rewrite take_take_drop).
    constructor; [apply run_take; lia | | | done].
    + rewrite length_take. lia.
    + rewrite length_take. apply (within_cap _ (run (cls it) s)). lia.
Qed.

(** Completeness: where a prefix is in the language, a match is found. *)
Lemma match_here_complete pat w s :
  matches pat w → is_Some (match_here pat (w ++ s)).
Proof.
  intros H. revert s. induction H as [|it rest u v Hu Hlo Hhi _ IH]; intros s; simpl.
  - eauto.
  - apply (backtrack_is_Some _ _ _ (length u)); [done| |].
    + apply cap_within; [|done]. rewrite <- app_assoc. by apply run_app_ge.
    + rewrite <- app_assoc, drop_app_length. apply IH.
Qed.

(** [search_from] returns the leftmost position with a match. *)
Lemma search_from_Some pat s i j n :
  search_from pat s i = Some (j, n) →
  ∃ k, j = i + k ∧ k ≤ length s
       ∧ match_here pat (drop k s) = Some n
       ∧ ∀ k', k' < k → match_here pat (drop k' s) = None.
Proof.
  revert i. induction s as [|c t IH]; intros i; simpl.
  - destruct (match_here pat []) as [m|] eqn:E; [|done]. intros [= <- <-].
    exists 0. split_and!; [lia|done|done|]. intros; lia.
  - destruct (match_here pat (c :: t)) as [m|] eqn:E.
    + intros [= <- <-]. exists 0. split_and!; [lia|lia|done|]. intros; lia.
    + intros H. destruct (IH _ H) as (k & -> & Hk & Hm & Hleft).
      exists (S k). split_and!; [lia|lia|done|].
      intros [|k'] ?; [done|]. apply Hleft. lia.
Qed.

Lemma search_from_None pat s i k :
  search_from pat s i = None → match_here pat (drop k s) = None.
Proof.
  revert i k. induction s as [|c t IH]; intros i k; simpl.
  - destruct (match_here pat []) eqn:E; [done|]. by rewrite drop_nil.
  - destruct (match_here pat (c :: t)) eqn:E; [done|].
    intros H. destruct k as [|k]; [done|]. by apply (IH (S i)).
Qed.

Lemma match_here_one p rest s :
  match_here (one p :: rest) s
  = match s with
    | c :: t => if p c then S <$> match_here rest t else None
    | [] => None
    end.
Proof.
  destruct s as [|c t]; [done|]. cbn [match_here one cls lo hi cap run].
  destruct (p c); [|done].
  replace (Nat.min 1 (S (run p t))) with 1 by lia. simpl.
  rewrite drop_0. by destruct (match_here rest t).
Qed.

Lemma match_here_plus p s :
  match_here [plus p] s = if run p s <? 1 then None else Some (run p s + 0).
Proof. simpl. by destruct (run p s). Qed.

End ReFacts.

(** ** The identifier pattern *)

Module DoiFacts.
Import Re ReFacts.

Lemma matches_cons_inv it rest w :
  matches (it :: rest) w →
  ∃ u v, w = u ++ v ∧ Forall (λ c, cls it c = true) u
         ∧ lo it ≤ length u ∧ within (hi it) (length u) ∧ matches rest v.
Proof. inversion 1; subst. eauto 10. Qed.

Lemma matches_one_inv p rest w :
  matches (one p :: rest) w → ∃ c v, w = c :: v ∧ p c = true ∧ matches rest v.
Proof.
  intros H. apply matches_cons_inv in H as (u & v & -> & Hu & Hlo & Hhi & Hv).
  simpl in *. destruct u as [|c [|? ?]]; simpl in *; try lia.
  exists c, v. split_and!; [done| |done]. by inversion Hu.
Qed.

Lemma matches_chr_inv c rest w :
  matches (chr c :: rest) w → ∃ v, w = c :: v ∧ matches rest v.
Proof.
  intros H. apply matches_one_inv in H as (x & v & -> & Hx & Hv).
  apply bool_decide_eq_true in Hx as ->. eauto.
Qed.

Lemma matches_last_inv it w :
  matches [it] w →
  Forall (λ c, cls it c = true) w ∧ lo it ≤ length w ∧ within (hi it) (length w).
Proof.
  intros H. apply matches_cons_inv in H as (u & v & -> & Hu & Hlo & Hhi & Hv).
  inversion Hv; subst. by rewrite app_nil_r.
Qed.

(** The shape of every string of the pattern's language. *)
Lemma matches_DOI_inv w :
  matches DOI_PATTERN w →
  ∃ d t, w = lit "10." ++ d ++ "/"%char :: t
         ∧ Forall (λ c, is_digit c = true) d ∧ 4 ≤ length d ∧ length d ≤ 9
         ∧ Forall (λ c, tail_class c = true) t ∧ 1 ≤ length t.
Proof.
  unfold DOI_PATTERN. intros H.
  apply matches_chr_inv in H as (w1 & -> & H).
  apply matches_chr_inv in H as (w2 & -> & H).
  apply matches_chr_inv in H as (w3 & -> & H).
  apply matches_cons_inv in H as (d & w4 & -> & Hd & Hlo & Hhi & H).
  apply matches_chr_inv in H as (t & -> & H).
  apply matches_last_inv in H as (Ht & Hlt & _).
  exists d, t. simpl in *. by split_and!.
Qed.

Lemma match_here_chr c rest t :
  match_here (chr c :: rest) (c :: t) = S <$> match_here rest t.
Proof. unfold chr. rewrite match_here_one. by rewrite bool_decide_eq_true_2. Qed.

Lemma match_here_chr_other c rest x t :
  x ≠ c → match_here (chr c :: rest) (x :: t) = None.
Proof.
  intros Hx. unfold chr. rewrite match_here_one. by rewrite bool_decide_eq_false_2.
Qed.

(** A digit run that a slash must follow is taken whole. *)
Lemma match_here_digits rest d s :
  Forall (λ c, is_digit c = true) d → 4 ≤ length d → length d ≤ 9 →
  match_here (range is_digit 4 9 :: chr "/" :: rest) (d ++ "/"%char :: s)
  = (λ m, length d + m) <$> match_here (chr "/" :: rest) ("/"%char :: s).
Proof.
  intros Hd Hlo Hhi. cbn [match_here range cls lo hi cap].
  rewrite (run_app_stop is_digit d "/" s Hd eq_refl).
  replace (Nat.min 9 (length d)) with (length d) by lia.
  rewrite backtrack_top.
  - replace (length d <? 4) with false by (symmetry; apply Nat.ltb_ge; lia).
    by rewrite drop_app_length.
  - intros j Hj. rewrite drop_app_le by lia.
    destruct (drop j d) as [|x d'] eqn:E.
    { apply (f_equal length) in E. rewrite length_drop in E. simpl in E. lia. }
    assert (is_digit x = true) as Hx.
    { assert (x ∈ d) as Hin by (apply (subseteq_drop j d); rewrite E; by left).
      by apply (proj1 (Forall_forall _ _) Hd). }
    simpl. apply match_here_chr_other. by intros ->.
Qed.

(** At any position the match found is the longest one of the language. *)
Lemma match_here_DOI_longest s n' :
  n' ≤ length s → matches DOI_PATTERN (take n' s) →
  ∃ n, match_here DOI_PATTERN s = Some n ∧ n' ≤ n.
Proof.
  intros Hn H. apply matches_DOI_inv in H as (d & t & Hw & Hd & Hlo & Hhi & Ht & Hlt).
  assert (n' = 3 + length d + 1 + length t) as Hlen.
  { apply (f_equal length) in Hw. rewrite length_take in Hw.
    simpl in Hw. rewrite length_app in Hw. simpl in Hw. lia. }
  rewrite <- (take_drop n' s), Hw. unfold DOI_PATTERN.
  replace ((lit "10." ++ d ++ "/"%char :: t) ++ drop n' s)
    with ("1"%char :: "0"%char :: "."%char :: d ++ "/"%char :: (t ++ drop n' s))
    by (simpl; by rewrite <- app_assoc).
  rewrite !match_here_chr.
  rewrite match_here_digits, match_here_chr, match_here_plus by done.
  pose proof (run_app_ge (ignorecase DOI_TAIL_CLASS) t (drop n' s) Ht) as Hrun.
  replace (run (ignorecase DOI_TAIL_CLASS) (t ++ drop n' s) <? 1) with false
    by (symmetry; apply Nat.ltb_ge; lia).
  simpl. eexists. split; [done|]. lia.
Qed.

Lemma or_else_nil s : or_else (Some s) [] = s.
Proof. by destruct s. Qed.

Lemma lstrip_by_ext p q s :
  Forall (λ c, p c = q c) s → lstrip_by p s = lstrip_by q s.
Proof. induction 1 as [|c s Hc _ IH]; simpl; [done|]. by rewrite Hc, IH. Qed.

Lemma rstrip_by_ext p q s :
  Forall (λ c, p c = q c) s → rstrip_by p s = rstrip_by q s.
Proof.
  intros H. unfold rstrip_by. f_equal. apply lstrip_by_ext. by apply Forall_reverse.
Qed.

(** No string of the language holds an opening brace, so stripping with
    or without it in the set is the same. *)
Lemma rstrip_match_sets w :
  matches DOI_PATTERN w →
  rstrip_chars (lit ").,;]}>") w = rstrip_chars (lit "){.,;]}>") w.
Proof.
  intros H. apply matches_DOI_inv in H as (d & t & -> & Hd & _ & _ & Ht & _).
  apply rstrip_by_ext.
  assert (∀ c, c ≠ "{"%char → mem c (lit ").,;]}>") = mem c (lit "){.,;]}>")) as Hne.
  { intros c Hc. unfold mem. apply bool_decide_ext. simpl.
    rewrite !elem_of_cons. tauto. }
  repeat (apply Forall_cons; split; [by apply Hne|]).
  apply Forall_app. split.
  - eapply Forall_impl; [exact Hd|]. intros c Hc. apply Hne. by intros ->.
  - apply Forall_cons. split; [by apply Hne|].
    eapply Forall_impl; [exact Ht|]. intros c Hc. apply Hne. by intros ->.
Qed.

(** What [find_doi] returns is never the empty string. *)
Lemma find_doi_truthy text d : find_doi text = Some d → truthy_str d = true.
Proof.
  unfold find_doi. destruct (search DOI_PATTERN (or_else text [])) as [[i n]|] eqn:E;
    [|done].
  intros [= <-]. apply search_from_Some in E as (k & -> & _ & Hm & _).
  apply match_here_sound in Hm as [_ Hm].
  apply matches_DOI_inv in Hm as (dd & t & Hw & _).
  unfold group0, rstrip_chars. simpl fst. simpl snd. simpl in Hw. rewrite Hw.
  pose proof (rstrip_by_head (λ c, mem c (lit ").,;]}>"))
                ("1"%char :: "0"%char :: "."%char :: dd ++ "/"%char :: t) "1"%char
                eq_refl eq_refl) as Hh.
  by destruct (rstrip_by _ _).
Qed.

End DoiFacts.

(** C8: [find_doi] returns the first substring of the text that matches
    [10\.\d{4,9}/[-._;()/:A-Z0-9]+] without regard to case (the leftmost
    position with a match, and there the longest match), with the trailing
    characters of the set closing parenthesis, opening brace, full stop, comma,
    semicolon, closing bracket, closing brace, greater-than stripped; it returns
    [None] when no substring matches.  The two examples of the specification
    evaluate as stated. *)
Theorem find_doi_first_match (text : str) :
  match find_doi (Some text) with
  | Some r =>
      ∃ i n, i + n ≤ length text
        ∧ Re.matches DOI_PATTERN (take n (drop i text))
        ∧ (∀ i' n', i' < i → ¬ Re.matches DOI_PATTERN (take n' (drop i' text)))
        ∧ (∀ n', i + n' ≤ length text →
                 Re.matches DOI_PATTERN (take n' (drop i text)) → n' ≤ n)
        ∧ r = rstrip_chars (lit "){.,;]}>") (take n (drop i text))
  | None => ∀ i n, ¬ Re.matches DOI_PATTERN (take n (drop i text))
  end
  ∧ find_doi None = None
  ∧ find_doi (Some (lit "see 10.1000/xyz123.")) = Some (lit "10.1000/xyz123")
  ∧ find_doi (Some (lit "no identifier here")) = None.
Proof.
  split; [|by vm_compute].
  unfold find_doi. rewrite DoiFacts.or_else_nil. unfold Re.search.
  destruct (Re.search_from DOI_PATTERN text 0) as [[j n]|] eqn:E.
  - apply ReFacts.search_from_Some in E as (i & -> & Hi & Hm & Hleft).
    unfold Re.group0. cbn [fst snd Nat.add].
    pose proof (ReFacts.match_here_sound _ _ _ Hm) as [Hn Hmatch].
    rewrite length_drop in Hn.
    exists i, n. split_and!; [lia|done| | |].
    + intros i' n' Hlt Hm'.
      pose proof (ReFacts.match_here_complete _ _ (drop n' (drop i' text)) Hm') as Hs.
      rewrite take_drop, (Hleft i' Hlt) in Hs. by destruct Hs.
    + intros n' Hn' Hm'.
      destruct (DoiFacts.match_here_DOI_longest (drop i text) n') as (m & Hm2 & Hle);
        [rewrite length_drop; lia|done|].
      rewrite Hm in Hm2. injection Hm2 as <-. done.
    + by rewrite DoiFacts.rstrip_match_sets.
  - intros i n Hm'.
    pose proof (ReFacts.match_here_complete _ _ (drop n (drop i text)) Hm') as Hs.
    rewrite take_drop, (ReFacts.search_from_None _ _ _ i E) in Hs. by destruct Hs.
Qed.

(** ** Renaming *)

Module RenameFacts.

Lemma lit_cons c s : lit (String c s) = c :: lit s.
Proof. done. Qed.

Lemma lit_inj s1 s2 : lit s1 = lit s2 → s1 = s2.
Proof.
  intros H. apply (f_equal string_of_list_ascii) in H.
  unfold lit in H. by rewrite !string_of_list_ascii_of_string in H.
Qed.

Lemma pretty_N_char_digit x : is_digit (pretty_N_char x) = true.
Proof. unfold pretty_N_char. by repeat case_match. Qed.

Lemma pretty_N_go_digits x s :
  Forall (λ c, is_digit c = true) (lit s) →
  Forall (λ c, is_digit c = true) (lit (pretty_N_go x s)).
Proof.
  revert s. induction (N.lt_wf_0 x) as [x _ IH]; intros s Hs.
  assert (x = 0 ∨ 0 < x)%N as [->|Hx] by lia.
  - by rewrite pretty_N_go_0.
  - rewrite pretty_N_go_step by done. apply IH.
    + by apply N.div_lt.
    + rewrite lit_cons. constructor; [apply pretty_N_char_digit | done].
Qed.

Lemma str_of_nat_digits i : Forall (λ c, is_digit c = true) (str_of_nat i).
Proof.
  unfold str_of_nat, pretty, pretty_nat, pretty, pretty_N.
  case_decide.
  - by repeat constructor.
  - apply pretty_N_go_digits. constructor.
Qed.

Lemma str_of_nat_inj i j : str_of_nat i = str_of_nat j → i = j.
Proof. intros H. apply lit_inj in H. by apply (inj pretty) in H. Qed.

Lemma numbered_inj stem suf i j : numbered stem suf i = numbered stem suf j → i = j.
Proof.
  unfold numbered. intros H.
  apply app_inv_head, app_inv_head in H.
  apply str_of_nat_inj.
  assert (length (str_of_nat i) = length (str_of_nat j)) as Hlen.
  { apply (f_equal length) in H. rewrite !length_app in H. lia. }
  by apply app_inj_1 in H as [H _].
Qed.

Lemma mem_app c (a b : str) : mem c (a ++ b) = (mem c a || mem c b)%bool.
Proof.
  unfold mem. destruct (bool_decide (c ∈ a)) eqn:Ea, (bool_decide (c ∈ b)) eqn:Eb;
    simpl; rewrite ?bool_decide_eq_true, ?bool_decide_eq_false in *;
    rewrite elem_of_app; tauto.
Qed.

Lemma mem_false_sub c (a b : str) : a ⊆ b → mem c b = false → mem c a = false.
Proof.
  unfold mem. rewrite !bool_decide_eq_false. intros Hsub Hb Ha. by apply Hb, Hsub.
Qed.

Lemma mem_digits c (d : str) :
  is_digit c = false → Forall (λ x, is_digit x = true) d → mem c d = false.
Proof.
  intros Hc Hd. unfold mem. apply bool_decide_eq_false. intros Hin.
  rewrite Forall_forall in Hd. specialize (Hd c Hin). congruence.
Qed.

Lemma valid_name_slash nm : valid_name nm = true → mem "/"%char nm = false.
Proof.
  unfold valid_name. rewrite !andb_true_iff, !negb_true_iff. tauto.
Qed.

(** The numbered names built from a valid name are valid names. *)
Lemma numbered_valid p nm i :
  valid_name nm = true →
  valid_name (numbered (stem (sibling p nm)) (suffix (sibling p nm)) i) = true.
Proof.
  intros Hnm. apply valid_name_slash in Hnm.
  assert (mem "/"%char (stem (sibling p nm)) = false) as Hstem.
  { unfold stem. simpl. destruct (suffix_start nm); [|done].
    eapply mem_false_sub; [apply subseteq_take | done]. }
  assert (mem "/"%char (suffix (sibling p nm)) = false) as Hsuf.
  { unfold suffix. simpl. destruct (suffix_start nm); [|done].
    eapply mem_false_sub; [apply subseteq_drop | done]. }
  unfold valid_name, numbered. rewrite !andb_true_iff, !negb_true_iff. split_and!.
  - by destruct (stem (sibling p nm)).
  - rewrite !mem_app, Hstem, Hsuf.
    by rewrite (mem_digits "/" (str_of_nat i) eq_refl (str_of_nat_digits i)).
  - apply bool_decide_eq_false. intros H. apply (f_equal length) in H.
    rewrite !length_app in H. simpl in H. lia.
Qed.

Lemma with_name_valid p nm :
  truthy_str (name p) = true → valid_name nm = true →
  with_name p nm = Return (sibling p nm).
Proof.
  unfold with_name, valid_name. intros ->.
  rewrite !andb_true_iff, !negb_true_iff. intros [[-> ->] ->]. done.
Qed.

Lemma sibling_eq p nm : sibling p nm = p ↔ nm = name p.
Proof.
  destruct p as [d n]. unfold sibling. simpl. split; [by intros [= ->] | by intros ->].
Qed.

Lemma exists_true fs p : exists_ fs p = true ↔ p ∈ fs.
Proof. apply bool_decide_eq_true. Qed.

Lemma exists_false fs p : exists_ fs p = false ↔ p ∉ fs.
Proof. apply bool_decide_eq_false. Qed.

Section Loop.

Variables (fs : FS) (path : Path) (stem suf : str).
Hypothesis Hpath : truthy_str (name path) = true.
Hypothesis Hvalid : ∀ j, valid_name (numbered stem suf j) = true.

Let cand (i : nat) : Path := sibling path (numbered stem suf i).

Lemma cand_inj i j : cand i = cand j → i = j.
Proof. unfold cand, sibling. intros [= H]. by apply numbered_inj in H. Qed.

(** The loop ends within [size fs + 1] rounds, at the least free number. *)
Lemma first_unused_finds (X : FS) fuel i :
  size X < fuel →
  (∀ j, i ≤ j → cand j ∈ fs → cand j ∈ X) →
  ∃ k, i ≤ k ∧ (cand k ∉ fs) ∧ (∀ j, i ≤ j → j < k → cand j ∈ fs)
       ∧ first_unused fs path stem suf fuel i = Some (Return (cand k)).
Proof.
  revert X i. induction fuel as [|fuel IH]; intros X i Hsize HX; [lia|].
  simpl. rewrite (with_name_valid path _ Hpath (Hvalid i)). fold (cand i).
  destruct (exists_ fs (cand i)) eqn:E; simpl.
  - apply exists_true in E.
    destruct (IH (X ∖ {[cand i]}) (S i)) as (k & Hk & Hfree & Hbelow & Hres).
    + assert (cand i ∈ X) as Hin by (apply HX; [lia|done]).
      assert ({[cand i]} ⊆ X) as Hsub by set_solver.
      pose proof (subseteq_size _ _ Hsub) as Hone.
      rewrite size_difference by done. rewrite size_singleton in *. lia.
    + intros j Hj Hin. apply elem_of_difference. split; [apply HX; [lia|done]|].
      rewrite elem_of_singleton. intros Heq. apply cand_inj in Heq. lia.
    + exists k. split_and!; [lia|done| |done].
      intros j Hj Hlt. destruct (decide (j = i)) as [->|]; [done|].
      apply Hbelow; lia.
  - apply exists_false in E. exists i. split_and!; [lia|done| |done].
    intros; lia.
Qed.

End Loop.

End RenameFacts.

Lemma with_name_Return_inv p nm t :
  with_name p nm = Return t →
  truthy_str (name p) = true ∧ valid_name nm = true ∧ t = sibling p nm.
Proof.
  unfold with_name, valid_name.
  destruct (truthy_str (name p)), (truthy_str nm), (mem "/"%char nm),
    (bool_decide (nm = lit ".")); simpl; try done.
  intros [= Ht]. by rewrite <- Ht.
Qed.

Lemma valid_name_truthy nm : valid_name nm = true → truthy_str nm = true.
Proof. unfold valid_name. rewrite !andb_true_iff. tauto. Qed.

(** The search of [safe_rename] for a name, once the target is known. *)
Lemma safe_rename_search fuel (fs : FS) path new_name :
  truthy_str (name path) = true → valid_name new_name = true → size fs < fuel →
  let target := sibling path new_name in
  ∃ final,
    (if exists_ fs target
     then first_unused fs path (stem target) (suffix target) fuel 1
     else Some (Return target)) = Some (Return final)
    ∧ (target ∉ fs → final = target)
    ∧ (target ∈ fs →
       ∃ i, 1 ≤ i
         ∧ final = sibling path (numbered (stem target) (suffix target) i)
         ∧ (final ∉ fs)
         ∧ ∀ j, 1 ≤ j → j < i →
                sibling path (numbered (stem target) (suffix target) j) ∈ fs).
Proof.
  intros Hp Hn Hf target.
  destruct (exists_ fs target) eqn:E.
  - apply RenameFacts.exists_true in E.
    destruct (RenameFacts.first_unused_finds fs path (stem target) (suffix target) Hp
                (λ j, RenameFacts.numbered_valid path new_name j Hn) fs fuel 1 Hf)
      as (k & Hk & Hfree & Hbelow & Hres); [done|].
    eexists. split_and!; [exact Hres|done|].
    intros _. exists k. by split_and!.
  - apply RenameFacts.exists_false in E.
    exists target. by split_and!.
Qed.

(** C5: for a path with a name and a candidate that is a file name,
    [safe_rename] returns, given fuel above the size of the directory.  When
    the candidate equals the current name the path comes back unchanged and
    nothing is renamed.  Otherwise, when an entry exists at the target, the
    name returned is [stem (i)suffix] (stem, space, number in parentheses,
    suffix) for the least [i >= 1] whose name is unused; when no entry
    exists at the target, the target itself is returned. *)
Theorem safe_rename_names fuel (fs : FS) path new_name dry_run :
  valid_name (name path) = true →
  valid_name new_name = true →
  size fs < fuel →
  dry_run = true ∨ path ∈ fs →
  let target := sibling path new_name in
  ∃ final fs',
    safe_rename fuel fs path new_name dry_run = Some (Return final, fs')
    ∧ (new_name = name path → final = path ∧ fs' = fs)
    ∧ (new_name ≠ name path → target ∉ fs → final = target)
    ∧ (new_name ≠ name path → target ∈ fs →
       ∃ i, 1 ≤ i
         ∧ final = sibling path (numbered (stem target) (suffix target) i)
         ∧ (final ∉ fs)
         ∧ ∀ j, 1 ≤ j → j < i →
                sibling path (numbered (stem target) (suffix target) j) ∈ fs).
Proof.
  intros Hp Hn Hf Hd target. subst target. apply valid_name_truthy in Hp.
  unfold safe_rename. rewrite (RenameFacts.with_name_valid _ _ Hp Hn).
  destruct (decide (sibling path new_name = path)) as [Heq|Hne].
  - exists (sibling path new_name), fs. pose proof (proj1 (RenameFacts.sibling_eq _ _) Heq).
    split_and!; done.
  - assert (new_name ≠ name path) as Hne'
        by (intros H; by apply Hne, RenameFacts.sibling_eq).
    destruct (safe_rename_search fuel fs path new_name Hp Hn Hf)
      as (final & -> & Hfree & Htaken).
    destruct dry_run; simpl.
    + exists final, fs. split_and!; done.
    + destruct Hd as [?|Hin]; [done|]. unfold rename.
      rewrite (proj2 (RenameFacts.exists_true _ _) Hin).
      eexists final, _. split_and!; done.
Qed.

Lemma safe_rename_names_witness :
  let path := in_papers "draft.pdf" in
  let target := sibling path (lit "Foo.pdf") in
  ∃ final fs',
    safe_rename 4 papers_two path (lit "Foo.pdf") true = Some (Return final, fs')
    ∧ (lit "Foo.pdf" = name path → final = path ∧ fs' = papers_two)
    ∧ (lit "Foo.pdf" ≠ name path → target ∉ papers_two → final = target)
    ∧ (lit "Foo.pdf" ≠ name path → target ∈ papers_two →
       ∃ i, 1 ≤ i
         ∧ final = sibling path (numbered (stem target) (suffix target) i)
         ∧ (final ∉ papers_two)
         ∧ ∀ j, 1 ≤ j → j < i →
                sibling path (numbered (stem target) (suffix target) j) ∈ papers_two).
Proof.
  apply (safe_rename_names 4 papers_two (in_papers "draft.pdf") (lit "Foo.pdf") true).
  - reflexivity.
  - reflexivity.
  - vm_compute. lia.
  - by left.
Defined.

(** The two examples of the specification. *)
Example safe_rename_Foo_1 :
  fst <$> safe_rename 3 papers_one (in_papers "draft.pdf") (lit "Foo.pdf") false
  = Some (Return (in_papers "Foo (1).pdf")).
Proof. by vm_compute. Qed.

Example safe_rename_Foo_2 :
  fst <$> safe_rename 4 papers_two (in_papers "draft.pdf") (lit "Foo.pdf") false
  = Some (Return (in_papers "Foo (2).pdf")).
Proof. by vm_compute. Qed.

(** C7: with [dry_run] true [safe_rename] leaves the file system as it
    found it and returns the result [r]; whenever the call with [dry_run]
    false returns a path it is the path of [r], and it does return [r]
    whenever the file to rename exists. *)
Theorem safe_rename_dry_run fuel (fs : FS) path new_name :
  size fs < fuel →
  ∃ r, safe_rename fuel fs path new_name true = Some (r, fs)
     ∧ (∀ p fs', safe_rename fuel fs path new_name false = Some (Return p, fs') →
                 r = Return p)
     ∧ (path ∈ fs → ∃ fs', safe_rename fuel fs path new_name false = Some (r, fs')).
Proof.
  intros Hf. unfold safe_rename.
  destruct (with_name path new_name) as [target|e] eqn:Ew.
  - apply with_name_Return_inv in Ew as (Hp & Hn & ->).
    destruct (decide (sibling path new_name = path)) as [Heq|Hne].
    + eexists. split_and!; [done| |eauto]. by intros p fs' [= <- _].
    + destruct (safe_rename_search fuel fs path new_name Hp Hn Hf)
        as (final & -> & _). simpl.
      exists (Return final). split_and!; [done| |].
      * intros p fs'. unfold rename. destruct (exists_ fs path); [|done].
        by intros [= <- _].
      * intros Hin. unfold rename.
        rewrite (proj2 (RenameFacts.exists_true _ _) Hin). eauto.
  - exists (Raise e). split_and!; [done|done|eauto].
Qed.

Lemma safe_rename_dry_run_witness :
  ∃ r, safe_rename 4 papers_two (in_papers "draft.pdf") (lit "Foo.pdf") true
       = Some (r, papers_two)
     ∧ (∀ p fs', safe_rename 4 papers_two (in_papers "draft.pdf") (lit "Foo.pdf") false
                 = Some (Return p, fs') → r = Return p)
     ∧ (in_papers "draft.pdf" ∈ papers_two →
        ∃ fs', safe_rename 4 papers_two (in_papers "draft.pdf") (lit "Foo.pdf") false
               = Some (r, fs')).
Proof.
  apply (safe_rename_dry_run 4 papers_two (in_papers "draft.pdf") (lit "Foo.pdf")).
  vm_compute. lia.
Defined.

(** ** The resolution pipeline *)

(** Case analysis on the truthiness tests of a stage, kept consistent
    through the equations already recorded. *)
Ltac crush :=
  cbn in *;
  repeat (first
    [ match goal with
      | H : truthy ?o = _ |- context [truthy ?o] => rewrite H
      | H : truthy_str ?o = _ |- context [truthy_str ?o] => rewrite H
      | |- context [truthy ?o] => is_var o; destruct (truthy o) eqn:?
      | |- context [truthy_str ?o] => is_var o; destruct (truthy_str o) eqn:?
      end ]; cbn in *);
  try done.

Ltac open_state st :=
  let t := fresh "t" in let a := fresh "a" in let pu := fresh "pu" in
  let l := fresh "l" in let r := fresh "r" in
  destruct st as [t a pu l r].

Ltac open_doc doc :=
  let mt := fresh "mt" in let ma := fresh "ma" in
  destruct (metadata doc) as [[mt ma]|].

Ltac open_msg msg :=
  let t0 := fresh "t0" in let a0 := fresh "a0" in let pb := fresh "pb" in
  destruct msg as [[[|t0 ?]|] [[|a0 ?]|] [pb|]].

Module PipelineFacts.

Lemma stage_fallback_title p st :
  title (stage_fallback p st)
  = if truthy (title st) then title st else Some (stem p).
Proof. unfold stage_fallback. open_state st. crush. Qed.

Lemma stage_fallback_first_author p st :
  first_author (stage_fallback p st)
  = if truthy (first_author st) then first_author st
    else Some (lit "Unknown Author").
Proof. unfold stage_fallback. open_state st. crush. Qed.

Lemma stage_fallback_publisher p st :
  publisher (stage_fallback p st)
  = if truthy (publisher st) then publisher st
    else Some (lit "Unknown Publisher").
Proof. unfold stage_fallback. open_state st. crush. Qed.

Lemma stage_fallback_log p st :
  log (stage_fallback p st)
  = log st
    ++ (if truthy (title st) then [] else [lit "fallback: title from filename"])
    ++ (if truthy (first_author st) then [] else [lit "fallback: unknown author"])
    ++ (if truthy (publisher st) then [] else [lit "fallback: unknown publisher"]).
Proof.
  unfold stage_fallback. open_state st. crush;
    rewrite <- ?app_assoc; by rewrite ?app_nil_r.
Qed.

Lemma stage_fallback_requests p st : requests (stage_fallback p st) = requests st.
Proof. unfold stage_fallback. open_state st. crush. Qed.

Lemma stage_embedded_requests doc st : requests (stage_embedded doc st) = requests st.
Proof. unfold stage_embedded. open_state st. open_doc doc; crush. Qed.

Lemma stage_embedded_publisher doc st : publisher (stage_embedded doc st) = publisher st.
Proof. unfold stage_embedded. open_state st. open_doc doc; crush. Qed.

Lemma stage_embedded_title doc st :
  truthy (title st) = true → title (stage_embedded doc st) = title st.
Proof. unfold stage_embedded. open_state st. intros H. open_doc doc; crush. Qed.

Lemma stage_embedded_first_author doc st :
  truthy (first_author st) = true →
  first_author (stage_embedded doc st) = first_author st.
Proof. unfold stage_embedded. open_state st. intros H. open_doc doc; crush. Qed.

Lemma from_message_title msg st :
  truthy (title st) = true → title (from_message msg st) = title st.
Proof. unfold from_message. open_state st. intros H. open_msg msg; crush. Qed.

Lemma from_message_first_author msg st :
  truthy (first_author st) = true →
  first_author (from_message msg st) = first_author st.
Proof. unfold from_message. open_state st. intros H. open_msg msg; crush. Qed.

Lemma from_message_publisher msg st :
  truthy (publisher st) = true → publisher (from_message msg st) = publisher st.
Proof. unfold from_message. open_state st. intros H. open_msg msg; crush. Qed.

Lemma from_message_requests msg st : requests (from_message msg st) = requests st.
Proof. unfold from_message. open_state st. open_msg msg; crush. Qed.

Lemma from_message_log msg st : ∃ new, log (from_message msg st) = log st ++ new.
Proof.
  unfold from_message. open_state st.
  open_msg msg; crush; rewrite <- ?app_assoc;
    first [ by eexists | by exists []; rewrite app_nil_r ].
Qed.

Lemma stage_crossref_fields net email text st :
  (truthy (title st) = true → title (stage_crossref net email text st) = title st)
  ∧ (truthy (first_author st) = true →
     first_author (stage_crossref net email text st) = first_author st)
  ∧ (truthy (publisher st) = true →
     publisher (stage_crossref net email text st) = publisher st).
Proof.
  unfold stage_crossref.
  destruct (find_doi (Some text)) as [d|]; [|done].
  destruct (truthy_str d); [|done].
  destruct (query_crossref_by_doi net d email) as [msg|e]; [|done].
  split_and!; intros H.
  - by rewrite from_message_title.
  - by rewrite from_message_first_author.
  - by rewrite from_message_publisher.
Qed.

Lemma stem_truthy p : truthy_str (name p) = true → truthy_str (stem p) = true.
Proof.
  unfold stem, suffix_start. destruct (rfind "."%char (name p)) as [i|]; [|done].
  destruct (0 <? i) eqn:E1; [|done]. destruct (i + 1 <? length (name p)) eqn:E2; [|done].
  simpl. apply Nat.ltb_lt in E1, E2. intros _.
  destruct (name p) as [|c t]; [simpl in E2; lia|]. by destruct i; [lia|].
Qed.

End PipelineFacts.

(** C1, as the code has it: a field that holds a non-empty value when a
    stage starts is left as it is by that stage, whichever of the three stages
    it is (registry, embedded metadata, default fallback), so no later stage
    overwrites a non-empty value; and where the title is still empty at the
    last stage it becomes the stem of the file name. *)
Theorem nonempty_fields_kept net email text doc pdf_path (stage : State → State) st :
  stage = stage_crossref net email text
  ∨ stage = stage_embedded doc
  ∨ stage = stage_fallback pdf_path →
  (truthy (title st) = true → title (stage st) = title st)
  ∧ (truthy (first_author st) = true → first_author (stage st) = first_author st)
  ∧ (truthy (publisher st) = true → publisher (stage st) = publisher st)
  ∧ (truthy (title st) = false →
     title (stage_fallback pdf_path st) = Some (stem pdf_path)).
Proof.
  intros Hstage. split_and!.
  - destruct Hstage as [->|[->| ->]]; intros H.
    + by apply PipelineFacts.stage_crossref_fields.
    + by apply PipelineFacts.stage_embedded_title.
    + by rewrite PipelineFacts.stage_fallback_title, H.
  - destruct Hstage as [->|[->| ->]]; intros H.
    + by apply PipelineFacts.stage_crossref_fields.
    + by apply PipelineFacts.stage_embedded_first_author.
    + by rewrite PipelineFacts.stage_fallback_first_author, H.
  - destruct Hstage as [->|[->| ->]]; intros H.
    + by apply PipelineFacts.stage_crossref_fields.
    + by rewrite PipelineFacts.stage_embedded_publisher.
    + by rewrite PipelineFacts.stage_fallback_publisher, H.
  - intros H. by rewrite PipelineFacts.stage_fallback_title, H.
Qed.

Lemma nonempty_fields_kept_witness :
  let st := set_title (lit "On Proofs") initial in
  title (stage_fallback (in_papers "scan.pdf") st) = Some (lit "On Proofs").
Proof.
  intros st.
  apply (nonempty_fields_kept dead_net None [] cited_doc (in_papers "scan.pdf")
           (stage_fallback (in_papers "scan.pdf")) st).
  - right. right. reflexivity.
  - reflexivity.
Defined.

(** C1 as stated fails: the embedded-metadata stage sets the title of
    [cited_doc] (to the empty string its blank title is trimmed to, with its
    provenance entry), and the fallback stage then overwrites it. *)
Lemma blank_title_overwritten :
  let st := gathered dead_net cited_doc true None in
  title st = Some []
  ∧ log st = [lit "title from embedded metadata"]
  ∧ title (stage_fallback (in_papers "scan.pdf") st) = Some (lit "scan")
  ∧ title (stage_fallback (in_papers "scan.pdf") st) ≠ title st.
Proof. by vm_compute. Qed.

(** C2: when the document has a file name, every field of the resolved
    identity is non-empty; each field still empty after the registry and
    embedded-metadata stages is filled by the fallback (file name stem,
    [Unknown Author], [Unknown Publisher]) with its log entry, in that order;
    and [process_pdf] returns. *)
Theorem fallback_fills to_initials net pdf_path doc local_only email :
  truthy_str (name pdf_path) = true →
  let st := gathered net doc local_only email in
  let st' := resolve net pdf_path doc local_only email in
  truthy (title st') = true
  ∧ truthy (first_author st') = true
  ∧ truthy (publisher st') = true
  ∧ title st' = (if truthy (title st) then title st else Some (stem pdf_path))
  ∧ first_author st'
    = (if truthy (first_author st) then first_author st
       else Some (lit "Unknown Author"))
  ∧ publisher st'
    = (if truthy (publisher st) then publisher st
       else Some (lit "Unknown Publisher"))
  ∧ log st'
    = log st
      ++ (if truthy (title st) then [] else [lit "fallback: title from filename"])
      ++ (if truthy (first_author st) then [] else [lit "fallback: unknown author"])
      ++ (if truthy (publisher st) then [] else [lit "fallback: unknown publisher"])
  ∧ ∃ new_name why,
      process_pdf to_initials net pdf_path (Return doc) local_only email
      = Return (name pdf_path, new_name, why).
Proof.
  intros Hname st st'. subst st'. unfold resolve. fold st.
  rewrite PipelineFacts.stage_fallback_title, PipelineFacts.stage_fallback_first_author,
    PipelineFacts.stage_fallback_publisher, PipelineFacts.stage_fallback_log.
  split_and!; try done.
  - destruct (truthy (title st)) eqn:E; [done|]. simpl.
    by apply PipelineFacts.stem_truthy.
  - by destruct (truthy (first_author st)) eqn:E.
  - by destruct (truthy (publisher st)) eqn:E.
  - unfold process_pdf. eauto.
Qed.

Lemma fallback_fills_witness :
  let st' := resolve dead_net (in_papers "scan.pdf") cited_doc false None in
  title st' = Some (lit "scan")
  ∧ first_author st' = Some (lit "Unknown Author")
  ∧ publisher st' = Some (lit "Unknown Publisher").
Proof.
  intros st'.
  destruct (fallback_fills (λ s, s) dead_net (in_papers "scan.pdf") cited_doc false None)
    as (_ & _ & _ & Ht & Ha & Hp & _).
  - reflexivity.
  - split_and!; [exact Ht | exact Ha | exact Hp].
Defined.

Module LogFacts.

(** Steps 2 and 3 read the fields only: started with the same fields they
    end with the same fields and append the same entries. *)
Lemma stage_embedded_frame doc t a pu l r l' r' :
  let sa := stage_embedded doc
              {| title := t; first_author := a; publisher := pu;
                 log := l; requests := r |} in
  let sb := stage_embedded doc
              {| title := t; first_author := a; publisher := pu;
                 log := l'; requests := r' |} in
  title sa = title sb ∧ first_author sa = first_author sb
  ∧ publisher sa = publisher sb
  ∧ ∃ new, log sa = l ++ new ∧ log sb = l' ++ new.
Proof.
  unfold stage_embedded.
  open_doc doc; crush; split_and!; try done;
    first [ by exists []; rewrite !app_nil_r
          | by eexists [_]
          | eexists [_; _]; by rewrite <- !app_assoc ].
Qed.

Lemma stage_fallback_frame p sa sb pre :
  title sa = title sb → first_author sa = first_author sb →
  publisher sa = publisher sb → log sa = pre ++ log sb →
  title (stage_fallback p sa) = title (stage_fallback p sb)
  ∧ first_author (stage_fallback p sa) = first_author (stage_fallback p sb)
  ∧ publisher (stage_fallback p sa) = publisher (stage_fallback p sb)
  ∧ log (stage_fallback p sa) = pre ++ log (stage_fallback p sb).
Proof.
  intros Ht Ha Hp Hl.
  rewrite !PipelineFacts.stage_fallback_title, !PipelineFacts.stage_fallback_first_author,
    !PipelineFacts.stage_fallback_publisher, !PipelineFacts.stage_fallback_log.
  rewrite Ht, Ha, Hp, Hl. split_and!; try done. by rewrite <- !app_assoc.
Qed.

Lemma local_log p doc :
  log (stage_fallback p (stage_embedded doc initial)) ⊆ local_entries.
Proof.
  rewrite PipelineFacts.stage_fallback_log.
  assert (∀ e, e ∈ log (stage_embedded doc initial)
               → e = lit "title from embedded metadata"
                 ∨ e = lit "author from embedded metadata") as Hemb.
  { unfold stage_embedded, initial.
    open_doc doc; crush; intros e; rewrite ?elem_of_cons, ?elem_of_nil; tauto. }
  intros e. unfold local_entries. rewrite !elem_of_app. intros [He|[He|[He|He]]].
  - apply Hemb in He. rewrite !elem_of_cons. tauto.
  - destruct (truthy (title _)); revert He;
      rewrite ?elem_of_cons, ?elem_of_nil; tauto.
  - destruct (truthy (first_author _)); revert He;
      rewrite ?elem_of_cons, ?elem_of_nil; tauto.
  - destruct (truthy (publisher _)); revert He;
      rewrite ?elem_of_cons, ?elem_of_nil; tauto.
Qed.

Lemma found_not_local d : lit "found DOI " ++ d ∉ local_entries.
Proof.
  unfold local_entries. rewrite !elem_of_cons.
  intros [H|[H|[H|[H|[H|H]]]]]; try discriminate H. by apply not_elem_of_nil in H.
Qed.

End LogFacts.

(** C3: when the text holds an identifier and its lookup fails (network
    error, bad status or malformed body), [process_pdf] returns rather than
    raises; the log starts with the identifier found and the failure, and goes
    on as the log of a resolution from the embedded metadata and the defaults
    alone, which also gives the three fields. *)
Theorem lookup_failure_caught to_initials net pdf_path doc email d reason :
  find_doi (Some (extract_visible_text doc 2)) = Some d →
  failure_reason (net d email) = Some reason →
  let st := resolve net pdf_path doc false email in
  let fallbacks := stage_fallback pdf_path (stage_embedded doc initial) in
  log st = [lit "found DOI " ++ d; lit "Crossref failed: " ++ reason] ++ log fallbacks
  ∧ title st = title fallbacks
  ∧ first_author st = first_author fallbacks
  ∧ publisher st = publisher fallbacks
  ∧ requests st = [d]
  ∧ ∃ new_name why,
      process_pdf to_initials net pdf_path (Return doc) false email
      = Return (name pdf_path, new_name, why).
Proof.
  intros Hd Hfail st fallbacks. subst st fallbacks.
  unfold resolve, gathered. cbn [negb]. unfold stage_crossref. rewrite Hd.
  rewrite (DoiFacts.find_doi_truthy _ _ Hd).
  assert (query_crossref_by_doi net d email = Raise (RequestError reason)) as ->.
  { unfold query_crossref_by_doi. destruct (net d email); simpl in Hfail; congruence. }
  cbn [exn_message].
  set (pre := [lit "found DOI " ++ d; lit "Crossref failed: " ++ reason]).
  pose proof (LogFacts.stage_embedded_frame doc None None None pre [d] [] [])
    as (Ht & Ha & Hp & new & Hla & Hlb).
  rewrite app_nil_l in Hlb.
  pose proof (LogFacts.stage_fallback_frame pdf_path _ _ pre Ht Ha Hp
                ltac:(by rewrite Hla, Hlb)) as (Ht' & Ha' & Hp' & Hl').
  split_and!; [exact Hl' | exact Ht' | exact Ha' | exact Hp' | | ].
  - by rewrite PipelineFacts.stage_fallback_requests, PipelineFacts.stage_embedded_requests.
  - unfold process_pdf. eauto.
Qed.

Lemma lookup_failure_caught_witness :
  log (resolve dead_net (in_papers "scan.pdf") cited_doc false None)
  = [ lit "found DOI 10.1000/xyz123"; lit "Crossref failed: timed out";
      lit "title from embedded metadata"; lit "fallback: title from filename";
      lit "fallback: unknown author"; lit "fallback: unknown publisher" ].
Proof.
  destruct (lookup_failure_caught (λ s, s) dead_net (in_papers "scan.pdf") cited_doc None
              (lit "10.1000/xyz123") (lit "timed out")) as (Hlog & _).
  - by vm_compute.
  - reflexivity.
  - exact Hlog.
Defined.

(** C4 as stated fails: under local-only resolution the text of
    [cited_doc] holds an identifier, and the log has no entry for it. *)
Lemma local_only_skips_extract :
  find_doi (Some (extract_visible_text cited_doc 2)) = Some (lit "10.1000/xyz123")
  ∧ log (resolve dead_net (in_papers "scan.pdf") cited_doc true None)
    = [ lit "title from embedded metadata"; lit "fallback: title from filename";
        lit "fallback: unknown author"; lit "fallback: unknown publisher" ].
Proof. by vm_compute. Qed.

(** C4, as the code has it: the identifier is looked for exactly when
    local-only resolution is not requested.  Under local-only resolution
    neither the search nor the lookup takes place: the result is that of the
    embedded-metadata and fallback stages alone, nothing is requested, and no
    identifier is logged.  Otherwise an identifier that is found is the first
    log entry and the one request made; when none is found, nothing is
    requested and the result is that of the local-only resolution. *)
Theorem extract_unless_local net pdf_path doc email :
  let local := resolve net pdf_path doc true email in
  let st := resolve net pdf_path doc false email in
  local = stage_fallback pdf_path (stage_embedded doc initial)
  ∧ requests local = []
  ∧ (∀ d, lit "found DOI " ++ d ∉ log local)
  ∧ match find_doi (Some (extract_visible_text doc 2)) with
    | Some d => head (log st) = Some (lit "found DOI " ++ d) ∧ requests st = [d]
    | None => st = local
    end.
Proof.
  intros local st. subst local st. unfold resolve, gathered. cbn [negb].
  split_and!.
  - done.
  - by rewrite PipelineFacts.stage_fallback_requests, PipelineFacts.stage_embedded_requests.
  - intros d Hin. apply LogFacts.local_log in Hin. by apply LogFacts.found_not_local in Hin.
  - unfold stage_crossref.
    destruct (find_doi (Some (extract_visible_text doc 2))) as [d|] eqn:Hd; [|done].
    rewrite (DoiFacts.find_doi_truthy _ _ Hd).
    rewrite PipelineFacts.stage_fallback_requests, PipelineFacts.stage_embedded_requests.
    rewrite PipelineFacts.stage_fallback_log.
    set (s1 := match query_crossref_by_doi net d email with
               | Return msg => _ | Raise e => _ end).
    assert (∃ l, log s1 = (lit "found DOI " ++ d) :: l) as [l1 Hl1].
    { subst s1. destruct (query_crossref_by_doi net d email) as [msg|e]; [|by eexists].
      unfold from_message. cbn.
      destruct (msg_title msg) as [[|t0 ?]|], (msg_author msg) as [[|a0 ?]|],
        (msg_publisher msg) as [pb|]; cbn; try destruct (truthy_str pb); cbn;
        by eexists. }
    assert (requests s1 = [d]) as Hr1.
    { subst s1. destruct (query_crossref_by_doi net d email) as [msg|e]; [|done].
      unfold from_message. cbn.
      destruct (msg_title msg) as [[|t0 ?]|], (msg_author msg) as [[|a0 ?]|],
        (msg_publisher msg) as [pb|]; cbn; try destruct (truthy_str pb); cbn; done. }
    split; [|done].
    destruct s1 as [t a pu l r]. cbn [log] in Hl1. subst l.
    pose proof (LogFacts.stage_embedded_frame doc t a pu
                  ((lit "found DOI " ++ d) :: l1) r [] [])
      as (_ & _ & _ & new & -> & _). done.
Qed.

Arguments strip : simpl never.

Lemma strip_blank t : Forall (λ c, is_space c = true) t → strip t = [].
Proof. intros H. unfold strip. by rewrite (lstrip_by_all _ _ H). Qed.

(** C10: when the embedded title is present, not empty and all whitespace,
    and the title is still empty when the embedded-metadata stage starts, that
    stage stores the empty string and logs its provenance entry, and the
    fallback stage then sets the title to the stem of the file name, so the
    log holds both entries; likewise for the author, with [Unknown Author]. *)
Theorem blank_embedded_field doc meta pdf_path st :
  metadata doc = Some meta →
  let st2 := stage_embedded doc st in
  let st3 := stage_fallback pdf_path st2 in
  (∀ t, meta_title meta = Some t → truthy_str t = true →
        Forall (λ c, is_space c = true) t → truthy (title st) = false →
        title st2 = Some []
        ∧ lit "title from embedded metadata" ∈ log st2
        ∧ title st3 = Some (stem pdf_path)
        ∧ lit "title from embedded metadata" ∈ log st3
        ∧ lit "fallback: title from filename" ∈ log st3)
  ∧ (∀ a, meta_author meta = Some a → truthy_str a = true →
          Forall (λ c, is_space c = true) a → truthy (first_author st) = false →
          first_author st2 = Some []
          ∧ lit "author from embedded metadata" ∈ log st2
          ∧ first_author st3 = Some (lit "Unknown Author")
          ∧ lit "author from embedded metadata" ∈ log st3
          ∧ lit "fallback: unknown author" ∈ log st3).
Proof.
  intros Hmeta st2 st3. destruct meta as [mt ma]. split.
  - intros t' Ht Htruthy Hblank Hunset. cbn in Ht. subst mt.
    assert (title st2 = Some [] ∧ lit "title from embedded metadata" ∈ log st2)
      as [Ht2 Hl2].
    { subst st2 st3. unfold stage_embedded. rewrite Hmeta. open_state st.
      cbn in Hunset. cbn. rewrite Hunset. cbn. rewrite Htruthy.
      rewrite (strip_blank _ Hblank).
      crush; (split; [done|]); set_solver. }
    subst st3. rewrite PipelineFacts.stage_fallback_title, PipelineFacts.stage_fallback_log.
    rewrite Ht2. cbn. split_and!; [done|done|done|set_solver|set_solver].
  - intros a' Ha Htruthy Hblank Hunset. cbn in Ha. subst ma.
    assert (first_author st2 = Some [] ∧ lit "author from embedded metadata" ∈ log st2)
      as [Ha2 Hl2].
    { subst st2 st3. unfold stage_embedded. rewrite Hmeta. open_state st.
      cbn in Hunset. crush; rewrite ?Htruthy, ?(strip_blank _ Hblank); cbn;
        (split; [done|]); set_solver. }
    subst st3.
    rewrite PipelineFacts.stage_fallback_first_author, PipelineFacts.stage_fallback_log.
    rewrite Ha2. cbn. split_and!; [done|done|done|set_solver|].
    destruct (truthy (title st2)); set_solver.
Qed.

Lemma blank_embedded_field_witness :
  let st2 := stage_embedded cited_doc initial in
  let st3 := stage_fallback (in_papers "scan.pdf") st2 in
  title st2 = Some []
  ∧ lit "title from embedded metadata" ∈ log st2
  ∧ title st3 = Some (stem (in_papers "scan.pdf"))
  ∧ lit "title from embedded metadata" ∈ log st3
  ∧ lit "fallback: title from filename" ∈ log st3.
Proof.
  intros st2 st3.
  destruct (blank_embedded_field cited_doc
              {| meta_title := Some (lit "  "); meta_author := None |}
              (in_papers "scan.pdf") initial eq_refl) as [Htitle _].
  apply (Htitle (lit "  ")).
  - reflexivity.
  - reflexivity.
  - by repeat constructor.
  - reflexivity.
Defined.

(** ** The composed name *)

Lemma truncate_filename_length nm max_len :
  length (truncate_filename nm max_len) ≤ max_len.
Proof.
  unfold truncate_filename. destruct (length nm <=? max_len) eqn:E.
  - by apply Nat.leb_le.
  - unfold rstrip. etrans; [apply rstrip_by_length|]. rewrite length_take. lia.
Qed.

(** The composed name is never longer than 180 characters. *)
Lemma compose_name_length to_initials publisher title first_author :
  length (compose_name to_initials publisher title first_author) ≤ 180.
Proof. apply truncate_filename_length. Qed.

(** It keeps its extension when the untruncated name fits. *)
Lemma compose_name_fits to_initials publisher title first_author :
  let pub := sanitize (ArgStr (or_else publisher (lit "Unknown Publisher"))) in
  let ttl := sanitize (ArgStr (or_else title (lit "Untitled"))) in
  let ini := to_initials (or_else first_author (lit "Unknown Author")) in
  length (pub ++ lit " - " ++ ttl ++ lit " - " ++ ini ++ lit ".pdf") ≤ 180 →
  compose_name to_initials publisher title first_author
  = pub ++ lit " - " ++ ttl ++ lit " - " ++ ini ++ lit ".pdf".
Proof.
  intros pub ttl ini Hlen. unfold compose_name, truncate_filename.
  fold pub ttl ini. by rewrite (proj2 (Nat.leb_le _ _) Hlen).
Qed.

(** C6 at the input of the specification's example: with a title of 200
    characters the composed name is the first 180 characters of the
    untruncated one, whatever the initials are, and so has lost [.pdf]. *)
Theorem compose_name_cuts_extension (to_initials : str → str) :
  let long_title := repeat "A"%char 200 in
  let r := compose_name to_initials (Some (lit "ACME")) (Some long_title)
             (Some (lit "Jane Doe")) in
  r = lit "ACME - " ++ repeat "A"%char 173
  ∧ length r = 180
  ∧ ¬ ∃ pre, r = pre ++ lit ".pdf".
Proof.
  intros long_title r.
  assert (r = lit "ACME - " ++ repeat "A"%char 173) as Hr.
  { subst r. unfold compose_name.
    assert (sanitize (ArgStr (or_else (Some (lit "ACME")) (lit "Unknown Publisher")))
            = lit "ACME") as -> by (by vm_compute).
    assert (sanitize (ArgStr (or_else (Some long_title) (lit "Untitled")))
            = long_title) as -> by (by vm_compute).
    set (ini := to_initials _).
    replace (lit "ACME" ++ lit " - " ++ long_title ++ lit " - " ++ ini ++ lit ".pdf")
      with ((lit "ACME - " ++ long_title) ++ lit " - " ++ ini ++ lit ".pdf")
      by (by rewrite <- !app_assoc).
    unfold truncate_filename.
    replace (length ((lit "ACME - " ++ long_title) ++ lit " - " ++ ini ++ lit ".pdf")
             <=? 180) with false
      by (symmetry; apply Nat.leb_gt; rewrite length_app;
          change (length (lit "ACME - " ++ long_title)) with 207; lia).
    rewrite take_app_le by (change (length (lit "ACME - " ++ long_title)) with 207; lia).
    by vm_compute. }
  rewrite Hr. split_and!; [done|by vm_compute|].
  intros [pre Hpre]. apply (f_equal reverse) in Hpre.
  rewrite !reverse_app in Hpre.
  change (reverse (repeat "A"%char 173)) with ("A"%char :: reverse (repeat "A"%char 172))
    in Hpre.
  discriminate Hpre.
Qed.

(** * Further properties *)

(** ** The sanitizer on its own output *)

Module TidyFacts.

Lemma replace_absent text ch new : ch ∉ text → replace text ch new = text.
Proof.
  unfold replace. induction text as [|c t IH]; intros Hch; [done|].
  cbn. destruct (decide (c = ch)) as [->|Hne].
  - exfalso. apply Hch. by left.
  - cbn. f_equal. apply IH. intros H. apply Hch. by right.
Qed.

Lemma replace_all_absent chs new text :
  (∀ c, c ∈ chs → c ∉ text) →
  fold_left (λ text ch, replace text ch new) chs text = text.
Proof.
  induction chs as [|ch chs IH]; intros H; simpl; [done|].
  rewrite replace_absent by (apply H; by left).
  apply IH. intros c Hc. apply H. by right.
Qed.

Lemma no_whitespace_run_tail c t : no_whitespace_run (c :: t) → no_whitespace_run t.
Proof. intros H i x y Hx Hy. by apply (H (S i) x y). Qed.

Lemma no_whitespace_run_next c d t :
  no_whitespace_run (c :: d :: t) → is_space c = true → is_space d = false.
Proof.
  intros H Hc. destruct (is_space d) eqn:Hd; [|done].
  by destruct (H 0 c d eq_refl eq_refl).
Qed.

(** [re.sub(r'\s+', ' ', s)] changes nothing where every whitespace run is a
    single space. *)
Lemma sub_whitespace_fixed s :
  no_whitespace_run s → (∀ c, c ∈ s → is_space c = true → c = " "%char) →
  Re.sub WHITESPACE_RUN (lit " ") s = s.
Proof.
  unfold Re.sub. induction s as [|c t IH]; intros Hrun Hsp; [done|].
  assert (Re.sub_go WHITESPACE_RUN (lit " ") 0 t = t) as IHt.
  { apply IH; [by eapply no_whitespace_run_tail|]. intros x Hx. apply Hsp. by right. }
  destruct (is_space c) eqn:Hc.
  - rewrite sub_whitespace_space by done.
    assert (c = " "%char) as -> by (apply Hsp; [by left|done]).
    destruct t as [|d t'].
    + done.
    + rewrite (lstrip_by_id is_space d t') by (by eapply no_whitespace_run_next).
      by rewrite IHt.
  - rewrite sub_whitespace_other by done. by rewrite IHt.
Qed.

Lemma strip_fixed s :
  (∀ c, head s = Some c → is_space c = false) →
  (∀ c, last s = Some c → is_space c = false) →
  strip s = s.
Proof.
  intros Hh Hl. unfold strip. destruct s as [|c t]; [done|].
  rewrite lstrip_by_id by (by apply Hh).
  destruct (exists_last (l := c :: t) ltac:(done)) as (pre & d & E).
  rewrite E in *. apply rstrip_by_snoc_keep. apply Hl. by rewrite last_snoc.
Qed.

(** In what [re.sub(r'\s+', ' ', s)] returns, the only whitespace is the
    space. *)
Lemma sub_whitespace_spaces n s :
  length s ≤ n →
  ∀ c, c ∈ Re.sub WHITESPACE_RUN (lit " ") s → is_space c = true → c = " "%char.
Proof.
  unfold Re.sub. revert s. induction n as [|n IH]; intros s Hn c.
  - destruct s; [|simpl in Hn; lia]. rewrite sub_whitespace_nil.
    intros H. by apply not_elem_of_nil in H.
  - destruct s as [|x t]; [rewrite sub_whitespace_nil; intros H;
                             by apply not_elem_of_nil in H|].
    simpl in Hn. destruct (is_space x) eqn:Hx.
    + rewrite sub_whitespace_space by done.
      change (lit " " ++ ?o) with (" "%char :: o). rewrite elem_of_cons.
      intros [->|Hin]; [done|]. apply (IH (lstrip_by is_space t)); [|done].
      pose proof (lstrip_by_length is_space t). lia.
    + rewrite sub_whitespace_other by done. rewrite elem_of_cons.
      intros [->|Hin]; [congruence|]. apply (IH t); [lia|done].
Qed.

Lemma elem_of_strip c s : c ∈ strip s → c ∈ s.
Proof.
  destruct (strip_infix s) as (l1 & l2 & E). intros H. rewrite E.
  rewrite !elem_of_app. tauto.
Qed.

Lemma sanitize_tidy text : tidy (sanitize text).
Proof.
  unfold sanitize.
  set (raw := match text with ArgStr s => s | ArgOther shown => shown | ArgNone => [] end).
  set (cleaned := fold_left _ INVALID_CHARS raw).
  destruct (sub_whitespace_shape _ cleaned (le_n _)) as (Hsingle & Hfrom & _).
  split_and!.
  - intros c Hc Hin. apply elem_of_strip in Hin.
    destruct (Hfrom c Hin) as [Hcl | ->].
    + revert Hcl. apply replace_all_removes; [done|].
      unfold REPLACEMENT. simpl. rewrite elem_of_cons, elem_of_nil.
      intros [->|[]]. revert Hc. unfold INVALID_CHARS. simpl.
      rewrite !elem_of_cons, elem_of_nil. intros Hc.
      repeat (destruct Hc as [Hc|Hc]; [discriminate Hc|]). done.
    + revert Hc. unfold INVALID_CHARS. simpl.
      rewrite !elem_of_cons, elem_of_nil. intros Hc.
      repeat (destruct Hc as [Hc|Hc]; [discriminate Hc|]). done.
  - destruct (strip_infix (Re.sub WHITESPACE_RUN (lit " ") cleaned)) as (l1 & l2 & Hs).
    apply (no_whitespace_run_infix l1 _ l2). rewrite <- Hs.
    by apply single_spaced_no_run.
  - intros c Hin. apply elem_of_strip in Hin.
    by apply (sub_whitespace_spaces _ cleaned (le_n _)).
  - intros c. apply strip_head.
  - intros c. apply strip_last.
Qed.

Lemma sanitize_fixed s : tidy s → sanitize (ArgStr s) = s.
Proof.
  intros (Hinv & Hrun & Hsp & Hh & Hl). unfold sanitize.
  rewrite replace_all_absent by done.
  rewrite sub_whitespace_fixed by done. by apply strip_fixed.
Qed.

End TidyFacts.

(** X1: [sanitize] is idempotent: applied to its own result it returns that
    result, whatever the first argument was. *)
Theorem sanitize_idempotent (text : text_arg) :
  sanitize (ArgStr (sanitize text)) = sanitize text.
Proof. apply TidyFacts.sanitize_fixed, TidyFacts.sanitize_tidy. Qed.

(** X2: the strings [sanitize] returns unchanged are exactly the tidy ones:
    without forbidden characters, with single spaces as their only whitespace,
    and without whitespace at either end. *)
Theorem sanitize_fixed_points (s : str) : sanitize (ArgStr s) = s ↔ tidy s.
Proof.
  split.
  - intros E. rewrite <- E. apply TidyFacts.sanitize_tidy.
  - apply TidyFacts.sanitize_fixed.
Qed.

Module LengthFacts.

Lemma replace_length text ch c : length (replace text ch [c]) = length text.
Proof.
  unfold replace. induction text as [|x t IH]; [done|].
  cbn. destruct (decide (x = ch)); cbn; by rewrite IH.
Qed.

Lemma replace_all_length chs c text :
  length (fold_left (λ text ch, replace text ch [c]) chs text) = length text.
Proof.
  revert text. induction chs as [|ch chs IH]; intros text; simpl; [done|].
  by rewrite IH, replace_length.
Qed.

Lemma sub_whitespace_length n s :
  length s ≤ n → length (Re.sub WHITESPACE_RUN (lit " ") s) ≤ length s.
Proof.
  unfold Re.sub. revert s. induction n as [|n IH]; intros s Hn.
  - destruct s; [done|simpl in Hn; lia].
  - destruct s as [|x t]; [done|]. simpl in Hn. destruct (is_space x) eqn:Hx.
    + rewrite sub_whitespace_space by done.
      pose proof (lstrip_by_length is_space t) as Hl.
      pose proof (IH (lstrip_by is_space t) ltac:(lia)) as Hs.
      rewrite length_app. change (length (lit " ")) with 1. cbn [length]. lia.
    + rewrite sub_whitespace_other by done.
      pose proof (IH t ltac:(lia)). cbn [length]. lia.
Qed.

Lemma strip_length s : length (strip s) ≤ length s.
Proof.
  unfold strip. etrans; [apply rstrip_by_length|]. apply lstrip_by_length.
Qed.

Lemma elem_of_rstrip_by p c s : c ∈ rstrip_by p s → c ∈ s.
Proof.
  destruct (rstrip_by_prefix p s) as (l & E & _). intros H.
  rewrite E, elem_of_app. by left.
Qed.

Lemma elem_of_truncate_filename c nm max_len :
  c ∈ truncate_filename nm max_len → c ∈ nm.
Proof.
  unfold truncate_filename. destruct (length nm <=? max_len); [done|].
  intros H. apply elem_of_rstrip_by in H. by apply (subseteq_take max_len nm).
Qed.

End LengthFacts.

(** X3: [sanitize] never lengthens a string: each forbidden character is
    replaced by one space, and collapsing and trimming only remove
    characters. *)
Theorem sanitize_length (s : str) : length (sanitize (ArgStr s)) ≤ length s.
Proof.
  unfold sanitize.
  etrans; [apply LengthFacts.strip_length|].
  etrans; [by apply (LengthFacts.sub_whitespace_length _ _ (le_n _))|].
  unfold REPLACEMENT. change (lit " ") with [" "%char].
  by rewrite (LengthFacts.replace_all_length INVALID_CHARS " "%char s).
Qed.

(** X4: [truncate_filename] returns a prefix of the name of at most
    [max_len] characters; the name itself when it fits; and when it has to
    cut, a string that does not end in whitespace. *)
Theorem truncate_filename_prefix (nm : str) (max_len : nat) :
  let r := truncate_filename nm max_len in
  r `prefix_of` nm
  ∧ length r ≤ max_len
  ∧ (length nm ≤ max_len → r = nm)
  ∧ (max_len < length nm → ∀ c, last r = Some c → is_space c = false).
Proof.
  intros r. subst r. split_and!.
  - unfold truncate_filename. destruct (length nm <=? max_len); [done|].
    destruct (rstrip_by_prefix is_space (take max_len nm)) as (l & E & _).
    exists (l ++ drop max_len nm). unfold rstrip.
    by rewrite app_assoc, <- E, take_drop.
  - apply truncate_filename_length.
  - intros H. unfold truncate_filename. by rewrite (proj2 (Nat.leb_le _ _) H).
  - intros H c. unfold truncate_filename.
    rewrite (proj2 (Nat.leb_gt _ _) H). apply rstrip_by_last.
Qed.

(** X5: a forbidden character in the composed name can only come from the
    initials: the publisher and title parts are sanitized, the separators and
    the extension hold none, and truncation adds nothing. *)
Theorem compose_name_forbidden (to_initials : str → str)
    (publisher title first_author : option str) (c : ascii) :
  c ∈ INVALID_CHARS →
  c ∈ compose_name to_initials publisher title first_author →
  c ∈ to_initials (or_else first_author (lit "Unknown Author")).
Proof.
  intros Hc Hin. unfold compose_name in Hin.
  apply LengthFacts.elem_of_truncate_filename in Hin.
  rewrite !elem_of_app in Hin.
  destruct Hin as [Hin|[Hin|[Hin|[Hin|[Hin|Hin]]]]]; [| | | |done|].
  - exfalso. by eapply (proj1 (TidyFacts.sanitize_tidy _)).
  - exfalso. revert Hc Hin. unfold INVALID_CHARS. simpl.
    rewrite !elem_of_cons, !elem_of_nil. intros Hc Hin.
    repeat (destruct Hin as [->|Hin]; [intuition discriminate|]). done.
  - exfalso. by eapply (proj1 (TidyFacts.sanitize_tidy _)).
  - exfalso. revert Hc Hin. unfold INVALID_CHARS. simpl.
    rewrite !elem_of_cons, !elem_of_nil. intros Hc Hin.
    repeat (destruct Hin as [->|Hin]; [intuition discriminate|]). done.
  - exfalso. revert Hc Hin. unfold INVALID_CHARS. simpl.
    rewrite !elem_of_cons, !elem_of_nil. intros Hc Hin.
    repeat (destruct Hin as [->|Hin]; [intuition discriminate|]). done.
Qed.

Lemma compose_name_forbidden_witness :
  "/"%char ∉ compose_name (λ _, lit "JD") (Some (lit "A/B Press")) (Some (lit "Why?"))
                (Some (lit "Jane Doe")).
Proof.
  intros Hin.
  assert ("/"%char ∈ lit "JD") as H.
  { apply (compose_name_forbidden (λ _, lit "JD") (Some (lit "A/B Press"))
             (Some (lit "Why?")) (Some (lit "Jane Doe")) "/"%char); [|exact Hin].
    unfold INVALID_CHARS. simpl. rewrite !elem_of_cons. tauto. }
  simpl in H. rewrite !elem_of_cons, elem_of_nil in H. intuition discriminate.
Defined.

(** ** More on the identifier *)

Module ShapeFacts.
Import Re ReFacts DoiFacts.

Lemma rstrip_by_keep_after p a x b :
  p x = false → rstrip_by p (a ++ x :: b) = a ++ x :: rstrip_by p b.
Proof.
  intros Hx. induction b as [|y b IH] using rev_ind.
  - replace (a ++ [x]) with (a ++ [x]) by done.
    rewrite (rstrip_by_snoc_keep p a x Hx). by unfold rstrip_by.
  - replace (a ++ x :: b ++ [y]) with ((a ++ x :: b) ++ [y])
      by (by rewrite <- app_assoc).
    destruct (p y) eqn:Hy.
    + by rewrite !rstrip_by_snoc_drop.
    + rewrite !rstrip_by_snoc_keep by done. by rewrite <- app_assoc.
Qed.

Lemma search_from_None_intro pat s i :
  (∀ k, match_here pat (drop k s) = None) → search_from pat s i = None.
Proof.
  revert i. induction s as [|c t IH]; intros i H;
    pose proof (H 0) as H0; rewrite drop_0 in H0; simpl; rewrite H0.
  - done.
  - apply IH. intros k. apply (H (S k)).
Qed.

Lemma digit_run_unique d d' x y :
  Forall (λ c, is_digit c = true) d → Forall (λ c, is_digit c = true) d' →
  d ++ "/"%char :: x = d' ++ "/"%char :: y → d = d'.
Proof.
  intros Hd. revert d'. induction Hd as [|c d Hc _ IH]; intros d' Hd' E.
  - destruct d' as [|c' d']; [done|]. simpl in E. injection E as <- _.
    by inversion Hd'.
  - destruct d' as [|c' d']; simpl in E.
    + injection E as -> _. done.
    + injection E as <- E. f_equal. apply IH; [by inversion Hd'|done].
Qed.

End ShapeFacts.

(** X6: whatever [find_doi] returns occurs in the text, starts with [10.],
    four to nine digits and a slash (stripping never reaches them), goes on
    with characters of the pattern's last class, and does not end in one of
    the stripped characters. *)
Theorem find_doi_shape (text : option str) (r : str) :
  find_doi text = Some r →
  ∃ d t pre post,
    r = lit "10." ++ d ++ "/"%char :: t
    ∧ Forall (λ c, is_digit c = true) d ∧ 4 ≤ length d ∧ length d ≤ 9
    ∧ Forall (λ c, tail_class c = true) t
    ∧ (∀ c, last r = Some c → mem c (lit ").,;]}>") = false)
    ∧ or_else text [] = pre ++ r ++ post.
Proof.
  unfold find_doi.
  destruct (Re.search DOI_PATTERN (or_else text [])) as [[j n]|] eqn:E; [|done].
  intros [= <-]. apply ReFacts.search_from_Some in E as (k & -> & _ & Hm & _).
  apply ReFacts.match_here_sound in Hm as [_ Hm].
  pose proof (DoiFacts.matches_DOI_inv _ Hm) as (d & t0 & Hw & Hd & Hlo & Hhi & Ht0 & _).
  unfold Re.group0, rstrip_chars. cbn [fst snd Nat.add]. rewrite Hw.
  set (p := λ c, mem c (lit ").,;]}>")).
  replace (lit "10." ++ d ++ "/"%char :: t0) with ((lit "10." ++ d) ++ "/"%char :: t0)
    by (by rewrite <- app_assoc).
  rewrite (ShapeFacts.rstrip_by_keep_after p _ "/"%char t0 eq_refl).
  destruct (rstrip_by_prefix p t0) as (l & Ht & _).
  exists d, (rstrip_by p t0), (take k (or_else text [])),
    (l ++ drop n (drop k (or_else text []))).
  split_and!; try done.
  - rewrite Ht in Ht0. by apply Forall_app in Ht0 as [? _].
  - intros c Hc. rewrite <- (ShapeFacts.rstrip_by_keep_after p _ "/"%char t0 eq_refl) in Hc.
    by apply rstrip_by_last in Hc.
  - rewrite <- (take_drop k (or_else text [])) at 1. f_equal.
    rewrite <- (take_drop n (drop k (or_else text []))) at 1.
    rewrite Hw. rewrite Ht at 1. rewrite <- ?app_assoc. simpl.
    by rewrite <- ?app_assoc.
Qed.

Lemma find_doi_shape_witness :
  ∃ d t pre post,
    lit "10.1000/xyz123" = lit "10." ++ d ++ "/"%char :: t
    ∧ Forall (λ c, is_digit c = true) d ∧ 4 ≤ length d ∧ length d ≤ 9
    ∧ Forall (λ c, tail_class c = true) t
    ∧ (∀ c, last (lit "10.1000/xyz123") = Some c → mem c (lit ").,;]}>") = false)
    ∧ or_else (Some (lit "see 10.1000/xyz123.")) [] = pre ++ lit "10.1000/xyz123" ++ post.
Proof.
  apply (find_doi_shape (Some (lit "see 10.1000/xyz123.")) (lit "10.1000/xyz123")).
  by vm_compute.
Defined.

(** X7: the bounds of the registrant code: after [10.] a run of fewer than
    four or more than nine digits before the slash is not an identifier (in a
    text with no other full stop, where no other match can start). *)
Theorem find_doi_registrant_bounds (d t : str) :
  Forall (λ c, is_digit c = true) d →
  length d < 4 ∨ 9 < length d →
  "."%char ∉ t →
  find_doi (Some (lit "10." ++ d ++ "/"%char :: t)) = None.
Proof.
  intros Hd Hlen Hdot. unfold find_doi. rewrite DoiFacts.or_else_nil.
  set (s := lit "10." ++ d ++ "/"%char :: t).
  unfold Re.search. rewrite ShapeFacts.search_from_None_intro; [done|].
  intros k. destruct (Re.match_here DOI_PATTERN (drop k s)) as [n|] eqn:Hm; [|done].
  exfalso. apply ReFacts.match_here_sound in Hm as [_ Hm].
  apply DoiFacts.matches_DOI_inv in Hm as (d' & t' & Hw & Hd' & Hlo & Hhi & _).
  assert (s !! (k + 2) = Some "."%char) as Hat.
  { rewrite <- lookup_drop. rewrite <- (take_drop n (drop k s)), Hw. done. }
  destruct k as [|k].
  - rewrite drop_0 in Hw.
    assert (d = d') as <-.
    { apply (ShapeFacts.digit_run_unique d d' t (t' ++ drop n s)); [done|done|].
      pose proof (take_drop n s) as E. rewrite Hw in E. subst s.
      simpl in E. injection E as E. by rewrite <- app_assoc in E. }
    lia.
  - subst s. replace (S k + 2) with (3 + k) in Hat by lia. simpl in Hat.
    apply list_elem_of_lookup_2 in Hat. rewrite elem_of_app, elem_of_cons in Hat.
    destruct Hat as [Hin|[Hin|Hin]]; [|done|done].
    rewrite Forall_forall in Hd. by specialize (Hd _ Hin).
Qed.

Lemma find_doi_registrant_bounds_witness :
  find_doi (Some (lit "10." ++ lit "123" ++ "/"%char :: lit "abc")) = None.
Proof.
  apply find_doi_registrant_bounds.
  - by repeat constructor.
  - left. simpl. lia.
  - simpl. rewrite !elem_of_cons, elem_of_nil. intuition discriminate.
Defined.

(** ** More on the resolution *)

Module ProvenanceFacts.

Definition filled (l : list str) : Prop := Forall (λ e, truthy_str e = true) l.

Lemma stage_embedded_log doc st :
  ∃ new, log (stage_embedded doc st) = log st ++ new ∧ filled new.
Proof.
  unfold stage_embedded, filled. open_state st.
  open_doc doc; crush;
    first [ by exists []; rewrite app_nil_r
          | by eexists [_]; split; [|repeat constructor]
          | eexists [_; _]; split; [by rewrite <- app_assoc|by repeat constructor] ].
Qed.

Lemma from_message_log_filled msg st :
  ∃ new, log (from_message msg st) = log st ++ new ∧ filled new.
Proof.
  unfold from_message, filled. open_state st.
  open_msg msg; crush; rewrite <- ?app_assoc;
    first [ by exists []; rewrite app_nil_r
          | eexists; split; [reflexivity|by repeat constructor] ].
Qed.

Lemma from_message_publisher_unset msg st :
  truthy (publisher st) = false →
  publisher (from_message msg st)
  = match msg_publisher msg with
    | Some p => if truthy_str p then Some p else publisher st
    | None => publisher st
    end.
Proof. unfold from_message. open_state st. intros H. open_msg msg; crush. Qed.

(** Step 1 on the initial state: nothing at all without an identifier,
    and otherwise a log that starts with the identifier found. *)
Lemma stage_crossref_initial net email text :
  match find_doi (Some text) with
  | None => stage_crossref net email text initial = initial
  | Some d =>
      ∃ new, log (stage_crossref net email text initial)
             = (lit "found DOI " ++ d) :: new ∧ filled new
  end.
Proof.
  unfold stage_crossref.
  destruct (find_doi (Some text)) as [d|] eqn:Hd; [|done].
  rewrite (DoiFacts.find_doi_truthy _ _ Hd).
  destruct (query_crossref_by_doi net d email) as [msg|e].
  - destruct (from_message_log_filled msg
                (sent d (log_append (lit "found DOI " ++ d) initial)))
      as (new & -> & Hnew). by exists new.
  - eexists [_]. split; [done|]. by repeat constructor.
Qed.

Lemma join_filled sep e l : truthy_str e = true → truthy_str (join sep (e :: l)) = true.
Proof. destruct e; [done|]. intros _. by destruct l. Qed.

Lemma found_filled d : truthy_str (lit "found DOI " ++ d) = true.
Proof. done. Qed.

Lemma stage_embedded_skip doc st :
  truthy (title st) = true → truthy (first_author st) = true →
  stage_embedded doc st = st.
Proof. intros Ht Ha. unfold stage_embedded. by rewrite Ht, Ha. Qed.

Lemma from_message_both msg t0 ts a0 more l r :
  msg_title msg = Some (t0 :: ts) →
  msg_author msg = Some (a0 :: more) →
  let author := strip (join (lit " ") [default [] (given a0); default [] (family a0)]) in
  from_message msg {| title := None; first_author := None; publisher := None;
                      log := l; requests := r |}
  = {| title := Some t0; first_author := Some author;
       publisher := if truthy (msg_publisher msg) then msg_publisher msg else None;
       log := l ++ [lit "title from Crossref"; lit "author from Crossref"]
                ++ (if truthy (msg_publisher msg) then [lit "publisher from Crossref"]
                    else []);
       requests := r |}.
Proof.
  intros Ht Ha author. unfold from_message. rewrite Ht, Ha. fold author.
  destruct (msg_publisher msg) as [pb|];
    cbv beta iota zeta delta
      [log_append set_title set_first_author set_publisher title first_author
       publisher log requests truthy negb andb];
    [destruct (truthy_str pb)|];
    f_equal; by rewrite <- ?app_assoc, ?app_nil_r.
Qed.

End ProvenanceFacts.

(** X8: the provenance log of a resolution is never empty and holds no
    empty entry, so the summary [process_pdf] returns is always the joined
    log: the alternative [ok] is never taken. *)
Theorem provenance_never_empty to_initials net pdf_path doc local_only email :
  let st := resolve net pdf_path doc local_only email in
  log st ≠ []
  ∧ Forall (λ e, truthy_str e = true) (log st)
  ∧ process_pdf to_initials net pdf_path (Return doc) local_only email
    = Return (name pdf_path,
              compose_name to_initials (publisher st) (title st) (first_author st),
              join (lit "; ") (log st)).
Proof.
  intros st.
  assert (ProvenanceFacts.filled (log st) ∧ log st ≠ []) as [Hfilled Hne].
  { subst st. unfold resolve, gathered. rewrite PipelineFacts.stage_fallback_log.
    set (s1 := if negb local_only then _ else initial).
    destruct (ProvenanceFacts.stage_embedded_log doc s1) as (new & Hemb & Hnew).
    rewrite (PipelineFacts.stage_embedded_publisher doc s1), Hemb.
    set (tail := (if truthy (title _) then [] else [_]) ++ _ ++ _).
    assert (ProvenanceFacts.filled tail) as Htail.
    { subst tail. unfold ProvenanceFacts.filled.
      destruct (truthy (title _)), (truthy (first_author _)), (truthy (publisher s1));
        by repeat constructor. }
    assert (s1 = initial
            ∨ ∃ d more, log s1 = (lit "found DOI " ++ d) :: more
                        ∧ ProvenanceFacts.filled more) as [Hs1|Hs1].
    { subst s1. destruct local_only; [by left|]. cbn [negb].
      pose proof (ProvenanceFacts.stage_crossref_initial net email
                    (extract_visible_text doc 2)) as H.
      destruct (find_doi _) as [d|]; [right|by left].
      destruct H as (more & ? & ?). eauto. }
    - assert (tail ≠ []) as Ht.
      { subst tail. rewrite Hs1. cbn [publisher initial truthy].
        intros H. apply (f_equal length) in H. rewrite !length_app in H.
        simpl in H. lia. }
      rewrite Hs1. cbn [log initial app]. split.
      + unfold ProvenanceFacts.filled. rewrite Forall_app. by split.
      + intros H. apply app_eq_nil in H as [_ H]. done.
    - destruct Hs1 as (d & more & -> & Hmore). split; [|done].
      unfold ProvenanceFacts.filled in *. rewrite !Forall_app. split_and!; [|done|done].
      by constructor. }
  split_and!; [done|done|].
  unfold process_pdf. fold st. destruct (log st) as [|e l]; [done|].
  unfold or_else. rewrite ProvenanceFacts.join_filled; [done|]. by inversion Hfilled.
Qed.

(** X9: where the publisher comes from: the registry record when the
    caller is not local-only, an identifier is found, the lookup returns and
    the record's publisher is not empty; in every other case the literal
    [Unknown Publisher].  The embedded metadata never supplies it. *)
Theorem publisher_source net pdf_path doc local_only email :
  publisher (resolve net pdf_path doc local_only email)
  = Some (if local_only then lit "Unknown Publisher"
          else match find_doi (Some (extract_visible_text doc 2)) with
               | Some d =>
                   match query_crossref_by_doi net d email with
                   | Return msg => or_else (msg_publisher msg) (lit "Unknown Publisher")
                   | Raise _ => lit "Unknown Publisher"
                   end
               | None => lit "Unknown Publisher"
               end).
Proof.
  unfold resolve, gathered.
  rewrite PipelineFacts.stage_fallback_publisher, PipelineFacts.stage_embedded_publisher.
  destruct local_only; [done|]. cbn [negb]. unfold stage_crossref.
  destruct (find_doi _) as [d|] eqn:Hd; [|done].
  rewrite (DoiFacts.find_doi_truthy _ _ Hd).
  destruct (query_crossref_by_doi net d email) as [msg|e]; [|done].
  rewrite ProvenanceFacts.from_message_publisher_unset by done.
  destruct (msg_publisher msg) as [p|]; [|done]. cbn.
  destruct (truthy_str p) eqn:Hp; cbn; by rewrite ?Hp.
Qed.

(** X10: the registry comes first: when the lookup returns a record whose
    first title and first author are not empty, they are the resolved title
    and author, whatever the embedded metadata and the file name are, and the
    log names the registry for both. *)
Theorem registry_first net pdf_path doc email d msg t0 ts a0 more :
  find_doi (Some (extract_visible_text doc 2)) = Some d →
  query_crossref_by_doi net d email = Return msg →
  msg_title msg = Some (t0 :: ts) →
  msg_author msg = Some (a0 :: more) →
  let author := strip (join (lit " ") [default [] (given a0); default [] (family a0)]) in
  truthy_str t0 = true →
  truthy_str author = true →
  let st := resolve net pdf_path doc false email in
  title st = Some t0
  ∧ first_author st = Some author
  ∧ log st
    = [ lit "found DOI " ++ d; lit "title from Crossref"; lit "author from Crossref";
        if truthy (msg_publisher msg) then lit "publisher from Crossref"
        else lit "fallback: unknown publisher" ].
Proof.
  intros Hd Hq Ht Ha author Ht0 Hauthor st. subst st.
  unfold resolve, gathered. cbn [negb]. unfold stage_crossref.
  rewrite Hd, (DoiFacts.find_doi_truthy _ _ Hd), Hq.
  unfold initial, sent, log_append.
  cbn [title first_author publisher log requests app].
  rewrite (ProvenanceFacts.from_message_both msg t0 ts a0 more _ _ Ht Ha). fold author.
  rewrite ProvenanceFacts.stage_embedded_skip by done.
  rewrite PipelineFacts.stage_fallback_title, PipelineFacts.stage_fallback_first_author,
    PipelineFacts.stage_fallback_log.
  cbn [title first_author publisher log truthy].
  rewrite Ht0, Hauthor.
  destruct (msg_publisher msg) as [pb|]; cbn [truthy];
    [destruct (truthy_str pb) eqn:Hp|];
    cbn [truthy publisher app]; rewrite ?Hp; split_and!; reflexivity.
Qed.

Lemma registry_first_witness :
  let net : network := λ _ _,
    Body (Some {| msg_title := Some [lit "On Proofs"];
                  msg_author := Some [{| given := Some (lit "Jane");
                                         family := Some (lit "Doe") |}];
                  msg_publisher := None |}) in
  let st := resolve net (in_papers "scan.pdf") cited_doc false None in
  title st = Some (lit "On Proofs")
  ∧ first_author st = Some (lit "Jane Doe")
  ∧ log st
    = [ lit "found DOI 10.1000/xyz123"; lit "title from Crossref";
        lit "author from Crossref"; lit "fallback: unknown publisher" ].
Proof.
  intros net st.
  apply (registry_first net (in_papers "scan.pdf") cited_doc None (lit "10.1000/xyz123")
           {| msg_title := Some [lit "On Proofs"];
              msg_author := Some [{| given := Some (lit "Jane");
                                     family := Some (lit "Doe") |}];
              msg_publisher := None |}
           (lit "On Proofs") [] {| given := Some (lit "Jane"); family := Some (lit "Doe") |} []).
  - by vm_compute.
  - reflexivity.
  - reflexivity.
  - reflexivity.
  - reflexivity.
  - reflexivity.
Defined.

(** X11: under local-only resolution, embedded title and author that are
    not blank are taken trimmed, the publisher is the default, and the log
    names exactly these three sources. *)
Theorem embedded_trimmed net pdf_path doc email meta t a :
  metadata doc = Some meta →
  meta_title meta = Some t →
  meta_author meta = Some a →
  truthy_str (strip t) = true →
  truthy_str (strip a) = true →
  let st := resolve net pdf_path doc true email in
  title st = Some (strip t)
  ∧ first_author st = Some (strip a)
  ∧ publisher st = Some (lit "Unknown Publisher")
  ∧ log st = [ lit "title from embedded metadata"; lit "author from embedded metadata";
               lit "fallback: unknown publisher" ].
Proof.
  intros Hmeta Ht Ha Hst Hsa st. subst st.
  unfold resolve, gathered. cbn [negb]. unfold stage_embedded, stage_fallback.
  rewrite Hmeta. cbn. rewrite Ht, Ha. cbn.
  destruct t as [|c t]; [done|]. destruct a as [|c' a]; [done|]. cbn.
  destruct (strip (c :: t)) as [|x st]; [done|].
  destruct (strip (c' :: a)) as [|y sa]; done.
Qed.

Lemma embedded_trimmed_witness :
  let doc := {| pages := [];
                metadata := Some {| meta_title := Some (lit " Foo ");
                                    meta_author := Some (lit "A. Smith") |} |} in
  let st := resolve dead_net (in_papers "scan.pdf") doc true None in
  title st = Some (strip (lit " Foo "))
  ∧ first_author st = Some (strip (lit "A. Smith"))
  ∧ publisher st = Some (lit "Unknown Publisher")
  ∧ log st = [ lit "title from embedded metadata"; lit "author from embedded metadata";
               lit "fallback: unknown publisher" ].
Proof.
  intros doc st.
  apply (embedded_trimmed dead_net (in_papers "scan.pdf") doc None
           {| meta_title := Some (lit " Foo "); meta_author := Some (lit "A. Smith") |}
           (lit " Foo ") (lit "A. Smith")); reflexivity.
Defined.

(** ** More on renaming *)

Module MoveFacts.

Lemma first_unused_free (fs : FS) path stem suf fuel i c :
  first_unused fs path stem suf fuel i = Some (Return c) → c ∉ fs.
Proof.
  revert i. induction fuel as [|fuel IH]; intros i; simpl; [done|].
  destruct (with_name path (numbered stem suf i)) as [cand|e]; [|done].
  destruct (exists_ fs cand) eqn:E; simpl.
  - apply IH.
  - intros [= <-]. by apply RenameFacts.exists_false.
Qed.

Lemma rename_size (fs : FS) (path final : Path) :
  path ∈ fs → final ∉ fs →
  size ({[final]} ∪ fs ∖ {[path]}) = size fs ∧ (path ∉ {[final]} ∪ fs ∖ {[path]}).
Proof.
  intros Hin Hfree. split.
  - rewrite size_union by set_solver.
    rewrite size_difference by set_solver. rewrite !size_singleton.
    assert ({[path]} ⊆ fs) as Hsub by set_solver.
    pose proof (subseteq_size _ _ Hsub) as Hone. rewrite size_singleton in Hone. lia.
  - set_solver.
Qed.

(** What a call of [safe_rename] does to the file system. *)
Lemma safe_rename_effect fuel (fs : FS) path new_name dry_run :
  match safe_rename fuel fs path new_name dry_run with
  | None => True
  | Some (Raise _, fs') => fs' = fs
  | Some (Return final, fs') =>
      (fs' = fs ∧ (dry_run = true ∨ final = path))
      ∨ (dry_run = false ∧ path ∈ fs ∧ (final ∉ fs)
         ∧ fs' = {[final]} ∪ fs ∖ {[path]}
         ∧ size fs' = size fs ∧ path ∉ fs')
  end.
Proof.
  unfold safe_rename.
  destruct (with_name path new_name) as [target|e]; [|done].
  destruct (decide (target = path)) as [->|Hne]; [by left; split; [|right]|].
  set (found := if exists_ fs target then _ else _).
  assert (∀ c, found = Some (Return c) → c ∉ fs) as Hfree.
  { subst found. destruct (exists_ fs target) eqn:E.
    - intros c. apply first_unused_free.
    - intros c [= <-]. by apply RenameFacts.exists_false. }
  destruct found as [[final|e]|]; [|done|done].
  specialize (Hfree final eq_refl).
  destruct dry_run; simpl; [by left; split; [|left]|].
  unfold rename. destruct (exists_ fs path) eqn:E; [|done].
  apply RenameFacts.exists_true in E. right.
  destruct (rename_size fs path final E Hfree) as [Hsize Hgone]. done.
Qed.

Lemma rfind_None c s : c ∉ s → rfind c s = None.
Proof.
  induction s as [|x t IH]; intros H; simpl; [done|].
  rewrite IH by (intros Hin; apply H; by right).
  destruct (decide (x = c)) as [->|]; [|done]. exfalso. apply H. by left.
Qed.

Lemma rfind_app_last c a b : c ∉ b → rfind c (a ++ c :: b) = Some (length a).
Proof.
  intros Hb. induction a as [|x a IH]; simpl.
  - rewrite (rfind_None c b Hb). by destruct (decide (c = c)).
  - by rewrite IH.
Qed.

Lemma rfind_Some c s k :
  rfind c s = Some k → s = take k s ++ c :: drop (S k) s ∧ c ∉ drop (S k) s.
Proof.
  revert k. induction s as [|x t IH]; intros k; simpl; [done|].
  destruct (rfind c t) as [i|] eqn:E.
  - intros [= <-]. destruct (IH i eq_refl) as [Ht Hfree]. simpl.
    split; [by f_equal|done].
  - destruct (decide (x = c)) as [->|]; [|done]. intros [= <-]. simpl.
    rewrite drop_0. split; [done|].
    intros Hin. clear IH. induction t as [|y t IHt]; [by apply not_elem_of_nil in Hin|].
    simpl in E. destruct (rfind c t) eqn:E'; [done|].
    destruct (decide (y = c)) as [->|Hy]; [done|].
    apply elem_of_cons in Hin as [->|Hin]; [done|]. by apply IHt.
Qed.

(** A name with a suffix is its stem, a full stop, and a non-empty rest
    without a full stop. *)
Lemma suffix_split nm k :
  suffix_start nm = Some k →
  ∃ rest, nm = take k nm ++ "."%char :: rest ∧ ("."%char ∉ rest) ∧ rest ≠ []
          ∧ 0 < k ∧ drop k nm = "."%char :: rest.
Proof.
  unfold suffix_start. destruct (rfind "."%char nm) as [i|] eqn:E; [|done].
  destruct (0 <? i) eqn:E1; [|done]. destruct (i + 1 <? length nm) eqn:E2; [|done].
  simpl. intros [= <-]. apply Nat.ltb_lt in E1, E2.
  apply rfind_Some in E as [Hs Hfree].
  exists (drop (S i) nm). split_and!; [done|done| |done|].
  - intros H. apply (f_equal length) in H. rewrite length_drop in H. simpl in H. lia.
  - rewrite Hs at 1. rewrite drop_app_length'; [done|]. rewrite length_take. lia.
Qed.

End MoveFacts.


(** X13: numbering keeps the extension: for a candidate name with a
    suffix, the numbered name has the same suffix, and its stem is the
    candidate's stem followed by the number in parentheses; and a name is
    always its stem followed by its suffix. *)
Theorem numbered_keeps_suffix (p : Path) (nm : str) (i : nat) :
  suffix (sibling p nm) ≠ [] →
  let target := sibling p nm in
  let cand := sibling p (numbered (stem target) (suffix target) i) in
  suffix cand = suffix target
  ∧ stem cand = stem target ++ lit " (" ++ str_of_nat i ++ lit ")"
  ∧ stem target ++ suffix target = nm.
Proof.
  intros Hsuf target cand. subst target cand. unfold suffix, stem in *. simpl in *.
  destruct (suffix_start nm) as [k|] eqn:E; [|done].
  destruct (MoveFacts.suffix_split nm k E) as (rest & Hnm & Hfree & Hrest & Hk & Hdrop).
  rewrite Hdrop.
  set (front := take k nm ++ lit " (" ++ str_of_nat i ++ lit ")").
  assert (numbered (take k nm) ("."%char :: rest) i = front ++ "."%char :: rest) as ->.
  { unfold numbered, front. by rewrite <- !app_assoc. }
  assert (suffix_start (front ++ "."%char :: rest) = Some (length front)) as ->.
  { unfold suffix_start. rewrite (MoveFacts.rfind_app_last _ _ _ Hfree).
    assert (0 < length front) as H0.
    { unfold front. rewrite !length_app. simpl. lia. }
    assert (length front + 1 < length (front ++ "."%char :: rest)) as H1.
    { rewrite length_app. simpl. destruct rest; [done|]. simpl. lia. }
    by rewrite (proj2 (Nat.ltb_lt _ _) H0), (proj2 (Nat.ltb_lt _ _) H1). }
  rewrite drop_app_length, take_app_length. split_and!; [done|done|].
  by rewrite <- Hdrop, take_drop.
Qed.

Lemma numbered_keeps_suffix_witness :
  let target := in_papers "Foo.pdf" in
  let cand := sibling target (numbered (stem target) (suffix target) 7) in
  suffix cand = suffix target
  ∧ stem cand = stem target ++ lit " (" ++ str_of_nat 7 ++ lit ")"
  ∧ stem target ++ suffix target = lit "Foo.pdf".
Proof.
  apply (numbered_keeps_suffix (in_papers "Foo.pdf") (lit "Foo.pdf") 7).
  by vm_compute.
Defined.

(** ** The batch *)

Module BatchFacts.

Lemma safe_rename_total fuel (fs : FS) path new_name dry_run :
  size fs < fuel → is_Some (safe_rename fuel fs path new_name dry_run).
Proof.
  intros Hf. unfold safe_rename.
  destruct (with_name path new_name) as [target|e] eqn:Ew; [|done].
  apply with_name_Return_inv in Ew as (Hp & Hn & ->).
  destruct (decide (sibling path new_name = path)); [done|].
  destruct (safe_rename_search fuel fs path new_name Hp Hn Hf) as (final & -> & _).
  destruct dry_run; simpl; [done|].
  by destruct (rename fs path final) as [[?|?] ?].
Qed.

Section Step.

Variables (to_initials : str → str) (net : network)
          (opener : FS → Path → result Document).
Variables (fuel : nat) (dry_run local_only : bool) (email : option str).

(** One document: one more line, headed by its file name; the counter
    goes up exactly when the line is a rename; the number of entries of the
    file system stays, and under dry run the file system itself. *)
Lemma main_step_spec run p :
  dry_run = true ∨ size (disk run) < fuel →
  ∃ o run',
    main_step to_initials net opener fuel dry_run local_only email run p = Some run'
    ∧ printed run' = printed run ++ [o]
    ∧ outcome_src o = name p
    ∧ renamed run' = renamed run + (if is_renamed o then 1 else 0)
    ∧ size (disk run') = size (disk run)
    ∧ (dry_run = true → disk run' = disk run ∧ is_renamed o = false).
Proof.
  intros Hfuel. unfold main_step, process_pdf.
  destruct (opener (disk run) p) as [doc|e]; cbv beta iota zeta.
  - set (st := resolve net p doc local_only email).
    set (new_name := compose_name to_initials (publisher st) (title st) (first_author st)).
    set (why := or_else (Some (join (lit "; ") (log st))) (lit "ok")).
    destruct (decide (name p = new_name)) as [E|E].
    + eexists _, _. split; [done|]. simpl. split_and!; try done; lia.
    + destruct dry_run.
      * eexists _, _. split; [done|]. simpl. split_and!; try done; lia.
      * destruct Hfuel as [?|Hfuel]; [done|].
        pose proof (MoveFacts.safe_rename_effect fuel (disk run) p new_name false) as Heff.
        destruct (safe_rename_total fuel (disk run) p new_name false Hfuel) as [[r fs] Hrun].
        rewrite Hrun in *. destruct r as [target|e].
        -- eexists _, _. split; [done|]. simpl. split_and!; try done.
           destruct Heff as [[-> _]|(_ & _ & _ & _ & Hsize & _)]; done.
        -- subst fs. eexists _, _. split; [done|]. simpl. split_and!; try done; lia.
  - eexists _, _. split; [done|]. simpl. split_and!; try done; lia.
Qed.

Lemma main_loop_spec pdfs run :
  dry_run = true ∨ size (disk run) < fuel →
  ∃ new run',
    main_loop to_initials net opener fuel dry_run local_only email pdfs run = Some run'
    ∧ printed run' = printed run ++ new
    ∧ outcome_src <$> new = name <$> pdfs
    ∧ renamed run' = renamed run + length (filter (λ o, is_renamed o = true) new)
    ∧ size (disk run') = size (disk run)
    ∧ (dry_run = true → disk run' = disk run ∧ renamed run' = renamed run).
Proof.
  revert run. induction pdfs as [|p rest IH]; intros run Hfuel.
  - exists [], run. simpl. rewrite app_nil_r. split_and!; try done; lia.
  - destruct (main_step_spec run p Hfuel) as (o & run1 & Hstep & Hp & Hsrc & Hr & Hs & Hd).
    destruct (IH run1) as (new & run' & Hloop & Hp' & Hsrc' & Hr' & Hs' & Hd').
    { destruct Hfuel as [?|?]; [by left|right; lia]. }
    exists (o :: new), run'. cbn [main_loop]. rewrite Hstep. split_and!.
    + done.
    + rewrite Hp', Hp. by rewrite <- app_assoc.
    + by rewrite !fmap_cons, Hsrc, Hsrc'.
    + rewrite Hr', Hr. rewrite filter_cons.
      destruct (is_renamed o).
      * rewrite decide_True by done. cbn [length]. lia.
      * rewrite decide_False by done. lia.
    + lia.
    + intros Hdry. destruct (Hd Hdry) as [Hdisk Ho], (Hd' Hdry) as [Hdisk' Hren'].
      split; [congruence|]. rewrite Hren', Hr, Ho. lia.
Qed.

End Step.

End BatchFacts.

(** X14: a dry-run batch never changes the file system and renames
    nothing: for any documents, whatever opening and resolving them gives,
    the loop of [main] ends with the file system and the counter it started
    with, after one line per document. *)
Theorem dry_run_batch to_initials net opener fuel local_only email pdfs run :
  ∃ run',
    main_loop to_initials net opener fuel true local_only email pdfs run = Some run'
    ∧ disk run' = disk run
    ∧ renamed run' = renamed run
    ∧ length (printed run') = length (printed run) + length pdfs.
Proof.
  destruct (BatchFacts.main_loop_spec to_initials net opener fuel true local_only email
              pdfs run) as (new & run' & Hloop & Hp & Hsrc & _ & _ & Hd); [by left|].
  exists run'. destruct (Hd eq_refl) as [? ?]. split_and!; try done.
  rewrite Hp, length_app. f_equal.
  apply (f_equal length) in Hsrc. by rewrite !length_fmap in Hsrc.
Qed.



(** ** Collecting the documents *)

Module GatherFacts.

Lemma lower_char_dot c : lower_char c = "."%char → c = "."%char.
Proof. destruct c as [[] [] [] [] [] [] [] []]; vm_compute; congruence. Qed.

Lemma lower_char_not_dot c x :
  lower_char c = x → x ≠ "."%char → c ≠ "."%char.
Proof. intros <- H ->. by apply H. Qed.

Lemma fold_gather_acc (f : Path → list Path) (inputs acc : list Path) :
  fold_left (λ pdfs inp, pdfs ++ f inp) inputs acc
  = acc ++ fold_left (λ pdfs inp, pdfs ++ f inp) inputs [].
Proof.
  revert acc. induction inputs as [|inp rest IH]; intros acc; simpl.
  - by rewrite app_nil_r.
  - rewrite (IH (acc ++ f inp)), (IH (f inp)). by rewrite app_assoc.
Qed.

Lemma gather_pdfs_fold_from (tree : Tree) (inputs : list Path) (recursive : bool)
    (acc : list Path) :
  fold_left
    (λ pdfs inp,
       if (is_file tree inp && bool_decide (lower (suffix inp) = lit ".pdf"))%bool
       then pdfs ++ [inp]
       else if is_dir tree inp then
         let globber := if recursive then lit "**/*.pdf" else lit "*.pdf" in
         pdfs ++ sorted_glob tree inp globber
       else pdfs)
    inputs acc
  = fold_left (λ pdfs inp, pdfs ++ contribution tree recursive inp) inputs acc.
Proof.
  revert acc. induction inputs as [|inp rest IH]; intros acc; [done|].
  cbn [fold_left]. rewrite IH. f_equal. unfold contribution.
  destruct (is_file tree inp && _)%bool; [done|].
  destruct (is_dir tree inp); [done|]. by rewrite app_nil_r.
Qed.

Lemma gather_pdfs_fold tree inputs recursive :
  gather_pdfs tree inputs recursive
  = fold_left (λ pdfs inp, pdfs ++ contribution tree recursive inp) inputs [].
Proof. apply gather_pdfs_fold_from. Qed.

Lemma gather_pdfs_cons tree inp rest recursive :
  gather_pdfs tree (inp :: rest) recursive
  = contribution tree recursive inp ++ gather_pdfs tree rest recursive.
Proof.
  rewrite !gather_pdfs_fold. simpl. by rewrite fold_gather_acc.
Qed.

(** The suffix test of [gather_pdfs], read on the name. *)
Lemma pdf_suffix p :
  lower (suffix p) = lit ".pdf"
  ↔ ∃ s e, name p = s ++ e ∧ s ≠ [] ∧ lower e = lit ".pdf".
Proof.
  split.
  - intros H. unfold suffix in H.
    destruct (suffix_start (name p)) as [k|] eqn:E; [|done].
    destruct (MoveFacts.suffix_split _ _ E) as (rest & Hnm & _ & _ & Hk & _).
    exists (take k (name p)), (drop k (name p)). split_and!.
    + by rewrite take_drop.
    + intros Hnil. apply (f_equal length) in Hnil. rewrite length_take in Hnil.
      apply (f_equal length) in Hnm. rewrite length_app, length_take in Hnm.
      simpl in *. lia.
    + done.
  - intros (s & e & Hnm & Hs & He).
    destruct e as [|c0 [|c1 [|c2 [|c3 [|? ?]]]]]; try done.
    injection He as H0 H1 H2 H3. apply lower_char_dot in H0 as ->.
    assert ("."%char ∉ [c1; c2; c3]) as Hfree.
    { rewrite !elem_of_cons, elem_of_nil. intros [E|[E|[E|[]]]]; subst.
      - by vm_compute in H1.
      - by vm_compute in H2.
      - by vm_compute in H3. }
    unfold suffix, suffix_start. rewrite Hnm, (MoveFacts.rfind_app_last _ _ _ Hfree).
    assert (0 < length s) as Hlen by (destruct s; [done|simpl; lia]).
    rewrite (proj2 (Nat.ltb_lt _ _) Hlen).
    replace (length s + 1 <? length (s ++ ["."%char; c1; c2; c3])) with true
      by (symmetry; apply Nat.ltb_lt; rewrite length_app; simpl; lia).
    simpl. rewrite drop_app_length. simpl. by rewrite H1, H2, H3.
Qed.

End GatherFacts.

(** X16: the inputs of [gather_pdfs] are handled one by one and in order:
    the documents gathered from a list of inputs are those of its first part
    followed by those of its second part. *)
Theorem gather_pdfs_app (tree : Tree) (a b : list Path) (recursive : bool) :
  gather_pdfs tree (a ++ b) recursive
  = gather_pdfs tree a recursive ++ gather_pdfs tree b recursive.
Proof.
  induction a as [|inp a IH]; [done|].
  rewrite <- app_comm_cons, !GatherFacts.gather_pdfs_cons, IH. by rewrite app_assoc.
Qed.

(** X17: which file inputs are taken: an input that is a regular file
    (and no directory) is gathered exactly when its name is a non-empty stem
    followed by [.pdf] in any mix of cases; so [x.PDF] is taken, and a file
    named just [.pdf] is not.  Any other such input is dropped without a
    word. *)
Theorem gather_pdfs_file (tree : Tree) (inp : Path) (recursive : bool) :
  is_dir tree inp = false →
  (gather_pdfs tree [inp] recursive = [inp]
   ↔ is_file tree inp = true
     ∧ ∃ s e, name inp = s ++ e ∧ s ≠ [] ∧ lower e = lit ".pdf")
  ∧ (gather_pdfs tree [inp] recursive = [inp] ∨ gather_pdfs tree [inp] recursive = []).
Proof.
  intros Hdir. rewrite <- GatherFacts.pdf_suffix.
  rewrite GatherFacts.gather_pdfs_cons.
  change (gather_pdfs tree [] recursive) with (@nil Path). rewrite app_nil_r.
  unfold contribution. rewrite Hdir.
  destruct (is_file tree inp); cbn [andb].
  - destruct (bool_decide (lower (suffix inp) = lit ".pdf")) eqn:E.
    + apply bool_decide_eq_true in E. split; [|by left]. by split.
    + apply bool_decide_eq_false in E. split; [|by right].
      split; [done|]. by intros [_ ?].
  - split; [|by right]. split; [done|]. by intros [? _].
Qed.

Lemma gather_pdfs_file_witness :
  let tree := {| is_file := λ _, true; is_dir := λ _, false;
                 sorted_glob := λ _ _, [] |} in
  (gather_pdfs tree [in_papers "x.PDF"] false = [in_papers "x.PDF"]
   ↔ true = true
     ∧ ∃ s e, lit "x.PDF" = s ++ e ∧ s ≠ [] ∧ lower e = lit ".pdf")
  ∧ (gather_pdfs tree [in_papers "x.PDF"] false = [in_papers "x.PDF"]
     ∨ gather_pdfs tree [in_papers "x.PDF"] false = []).
Proof.
  intros tree. apply (gather_pdfs_file tree (in_papers "x.PDF") false). reflexivity.
Defined.

(** ** The composed name as a file name *)

Module ValidFacts.

Lemma rstrip_by_keeps p (s : str) i c :
  s !! i = Some c → p c = false → rstrip_by p s !! i = Some c.
Proof.
  intros Hi Hc. destruct (rstrip_by_prefix p s) as (l & E & Hl).
  rewrite E in Hi. destruct (decide (i < length (rstrip_by p s))) as [Hlt|Hge].
  - by rewrite lookup_app_l in Hi.
  - rewrite lookup_app_r in Hi by lia. apply list_elem_of_lookup_2 in Hi.
    rewrite Forall_forall in Hl. specialize (Hl c Hi). congruence.
Qed.

(** Among the second and third characters of a tidy string followed by
    [" - "], one is not whitespace. *)
Lemma early_mark (pub rest : str) :
  tidy pub →
  ∃ i c, 1 ≤ i ∧ i ≤ 2 ∧ (pub ++ lit " - " ++ rest) !! i = Some c ∧ is_space c = false.
Proof.
  intros (_ & Hrun & _ & _ & Hlast).
  destruct pub as [|c1 [|c2 pub]].
  - exists 1, "-"%char. split_and!; [lia|lia|done|done].
  - exists 2, "-"%char. split_and!; [lia|lia|done|done].
  - destruct (is_space c2) eqn:E2.
    + destruct pub as [|c3 pub].
      * by rewrite (Hlast c2 eq_refl) in E2.
      * exists 2, c3. split_and!; [lia|lia|done|].
        apply (TidyFacts.no_whitespace_run_next c2 c3 pub); [|done].
        by eapply TidyFacts.no_whitespace_run_tail.
    + exists 1, c2. split_and!; [lia|lia|done|done].
Qed.

Lemma truncate_filename_keeps nm max_len i c :
  i < max_len → nm !! i = Some c → is_space c = false →
  truncate_filename nm max_len !! i = Some c.
Proof.
  intros Hi Hc Hs. unfold truncate_filename.
  destruct (length nm <=? max_len); [done|].
  apply rstrip_by_keeps; [|done]. by rewrite lookup_take_lt.
Qed.

Lemma slash_forbidden : "/"%char ∈ INVALID_CHARS.
Proof. unfold INVALID_CHARS. simpl. rewrite !elem_of_cons. tauto. Qed.

End ValidFacts.

(** X18: with initials that hold no slash, the composed name is always a
    name [with_name] accepts: it is not empty, holds no separator and is not
    [.]; so [safe_rename] never rejects the name [process_pdf] proposes for a
    path that has a name. *)
Theorem compose_name_valid (to_initials : str → str)
    (publisher title first_author : option str) (p : Path) :
  (∀ s, "/"%char ∉ to_initials s) →
  truthy_str (name p) = true →
  let new_name := compose_name to_initials publisher title first_author in
  valid_name new_name = true
  ∧ with_name p new_name = Return (sibling p new_name).
Proof.
  intros Hini Hp new_name.
  assert (valid_name new_name = true) as Hvalid.
  { subst new_name. unfold valid_name. rewrite !andb_true_iff, !negb_true_iff.
    unfold compose_name.
    set (pub := sanitize _). set (ttl := sanitize (ArgStr (or_else title _))).
    set (ini := to_initials _).
    destruct (ValidFacts.early_mark pub (ttl ++ lit " - " ++ ini ++ lit ".pdf")
                (TidyFacts.sanitize_tidy _)) as (i & c & Hi1 & Hi2 & Hat & Hc).
    pose proof (ValidFacts.truncate_filename_keeps _ 180 i c ltac:(lia) Hat Hc) as Hkept.
    apply lookup_lt_Some in Hkept.
    split_and!.
    - destruct (truncate_filename _ _); [simpl in Hkept; lia|done].
    - apply bool_decide_eq_false. intros Hin.
      apply LengthFacts.elem_of_truncate_filename in Hin.
      rewrite !elem_of_app in Hin.
      destruct Hin as [Hin|[Hin|[Hin|[Hin|[Hin|Hin]]]]].
      + by eapply (proj1 (TidyFacts.sanitize_tidy _)); [apply ValidFacts.slash_forbidden|].
      + simpl in Hin. rewrite !elem_of_cons, elem_of_nil in Hin. intuition discriminate.
      + by eapply (proj1 (TidyFacts.sanitize_tidy _)); [apply ValidFacts.slash_forbidden|].
      + simpl in Hin. rewrite !elem_of_cons, elem_of_nil in Hin. intuition discriminate.
      + by apply Hini in Hin.
      + simpl in Hin. rewrite !elem_of_cons, elem_of_nil in Hin. intuition discriminate.
    - apply bool_decide_eq_false. intros E. rewrite E in Hkept. simpl in Hkept. lia. }
  split; [done|]. by apply RenameFacts.with_name_valid.
Qed.

Lemma compose_name_valid_witness :
  let new_name := compose_name (λ _, lit "JD") (Some (lit "ACME")) None None in
  valid_name new_name = true
  ∧ with_name (in_papers "scan.pdf") new_name = Return (sibling (in_papers "scan.pdf") new_name).
Proof.
  apply (compose_name_valid (λ _, lit "JD") (Some (lit "ACME")) None None
           (in_papers "scan.pdf")).
  - intros s. simpl. rewrite !elem_of_cons, elem_of_nil. intuition discriminate.
  - reflexivity.
Defined.

(** ** Initials *)

Module InitialFacts.

Lemma upper_points_capital c :
  Rx.is_alpha c = true →
  upper_points c ≠ [] ∧ Forall (λ n, capital_point n = true) (upper_points c).
Proof.
  destruct c as [[] [] [] [] [] [] [] []]; vm_compute; intros H;
    first [ discriminate H | split; [discriminate | by repeat constructor] ].
Qed.

Lemma upper_points_ascii c :
  (code c < 128)%N → Rx.is_alpha c = true →
  ∃ n, upper_points c = [n] ∧ (65 ≤ n)%N ∧ (n ≤ 90)%N.
Proof.
  destruct c as [[] [] [] [] [] [] [] []]; vm_compute; intros Hc H;
    first [ discriminate H | discriminate Hc
          | eexists; split; [reflexivity|]; split; discriminate ].
Qed.

Lemma initial_of_alpha t c : initial_of t = Some c → Rx.is_alpha c = true ∧ c ∈ t.
Proof.
  destruct t as [|x t]; [done|]. simpl. destruct (Rx.is_alpha x) eqn:E; [|done].
  intros [= <-]. split; [done|by left].
Qed.

Lemma elem_of_sub_go pat repl skip prev s c :
  c ∈ Rx.sub_go pat repl skip prev s → c ∈ s ∨ c ∈ repl.
Proof.
  revert skip prev. induction s as [|x t IH]; intros skip prev; simpl.
  - intros H. by apply not_elem_of_nil in H.
  - destruct skip as [|k].
    + destruct (Rx.match_at pat prev (x :: t)) as [[|n]|].
      * rewrite elem_of_cons. intros [->|H]; [left; by left|].
        destruct (IH _ _ H); [left; by right|by right].
      * rewrite elem_of_app. intros [H|H]; [by right|].
        destruct (IH _ _ H); [left; by right|by right].
      * rewrite elem_of_cons. intros [->|H]; [left; by left|].
        destruct (IH _ _ H); [left; by right|by right].
    + intros H. destruct (IH _ _ H); [left; by right|by right].
Qed.

Lemma elem_of_split_go pat skip prev cur s t c :
  t ∈ Rx.split_go pat skip prev cur s → c ∈ t → c ∈ cur ∨ c ∈ s.
Proof.
  revert skip prev cur. induction s as [|x s IH]; intros skip prev cur; simpl.
  - rewrite elem_of_cons, elem_of_nil. intros [->|[]] H. by left.
  - destruct skip as [|k].
    + destruct (Rx.match_at pat prev (x :: s)) as [[|n]|].
      * intros Ht Hc. destruct (IH _ _ _ Ht Hc) as [H|H]; [|right; by right].
        apply elem_of_app in H as [H|H]; [by left|].
        apply list_elem_of_singleton in H as ->. right. by left.
      * rewrite elem_of_cons. intros [->|Ht] Hc; [by left|].
        destruct (IH _ _ _ Ht Hc) as [H|H]; [by apply not_elem_of_nil in H|].
        right. by right.
      * intros Ht Hc. destruct (IH _ _ _ Ht Hc) as [H|H]; [|right; by right].
        apply elem_of_app in H as [H|H]; [by left|].
        apply list_elem_of_singleton in H as ->. right. by left.
    + intros Ht Hc. destruct (IH _ _ _ Ht Hc) as [H|H]; [by left|right; by right].
Qed.

(** Every initial is a letter of the name. *)
Lemma initials_from_name name c :
  c ∈ omap initial_of
        (Rx.split TOKEN_BREAK
           (strip (Rx.sub ORCID_PATTERN (lit " ") (Rx.sub EMAIL_PATTERN (lit " ") name)))) →
  Rx.is_alpha c = true ∧ c ∈ name.
Proof.
  rewrite list_elem_of_omap. intros (t & Ht & Hc).
  apply initial_of_alpha in Hc as [Halpha Hc]. split; [done|].
  destruct (elem_of_split_go _ _ _ _ _ _ _ Ht Hc) as [H|H];
    [by apply not_elem_of_nil in H|].
  apply TidyFacts.elem_of_strip in H.
  assert (c ≠ " "%char) as Hsp by (by intros ->).
  apply elem_of_sub_go in H as [H|H];
    [|simpl in H; rewrite elem_of_cons, elem_of_nil in H; tauto].
  apply elem_of_sub_go in H as [H|H];
    [done|simpl in H; rewrite elem_of_cons, elem_of_nil in H; tauto].
Qed.

Lemma to_initials_unfold name :
  to_initials name
  = if negb (truthy_str name) then points (lit "NA")
    else match omap initial_of
                 (Rx.split TOKEN_BREAK
                    (strip (Rx.sub ORCID_PATTERN (lit " ")
                              (Rx.sub EMAIL_PATTERN (lit " ") name)))) with
         | [] => points (lit "NA")
         | c :: more => (c :: more) ≫= upper_points
         end.
Proof.
  unfold to_initials. destruct (negb (truthy_str name)); [done|].
  cbv zeta. by destruct (omap _ _).
Qed.

End InitialFacts.

(** X19: the initials are never empty and hold only capital (or caseless)
    letters: [NA], or the upper case of the letters that start the tokens of the
    name; so they hold no whitespace, no digit, no separator and no character
    that is forbidden in a file name. *)
Theorem to_initials_capitals (name : str) :
  to_initials name ≠ []
  ∧ Forall (λ n, capital_point n = true) (to_initials name).
Proof.
  rewrite InitialFacts.to_initials_unfold.
  destruct (negb (truthy_str name)); [split; [done|by repeat constructor]|].
  set (initials := omap _ _).
  assert (Forall (λ c, Rx.is_alpha c = true) initials) as Halpha.
  { apply Forall_forall. intros c Hc. subst initials.
    by apply InitialFacts.initials_from_name in Hc as [? _]. }
  destruct initials as [|c more]; [split; [done|by repeat constructor]|].
  split.
  - inversion Halpha as [|? ? Hc _]; subst.
    destruct (InitialFacts.upper_points_capital c Hc) as [Hne _].
    cbn. by destruct (upper_points c).
  - induction Halpha as [|x l Hx _ IH]; [constructor|].
    cbn. apply Forall_app. split; [|exact IH].
    by apply InitialFacts.upper_points_capital.
Qed.

(** X20: for a name of ASCII characters the initials are letters from A
    to Z only. *)
Theorem to_initials_ascii (name : str) :
  Forall (λ c, (code c < 128)%N) name →
  Forall (λ n, (65 ≤ n)%N ∧ (n ≤ 90)%N) (to_initials name).
Proof.
  intros Hascii. rewrite InitialFacts.to_initials_unfold.
  destruct (negb (truthy_str name)); [repeat constructor; done|].
  set (initials := omap _ _).
  assert (Forall (λ c, Rx.is_alpha c = true ∧ (code c < 128)%N) initials) as Hin.
  { apply Forall_forall. intros c Hc. subst initials.
    apply InitialFacts.initials_from_name in Hc as [Ha Hc]. split; [done|].
    rewrite Forall_forall in Hascii. by apply Hascii. }
  destruct initials as [|c more]; [repeat constructor; done|].
  induction Hin as [|x l [Hx Hlt] _ IH]; [constructor|].
  cbn. apply Forall_app. split; [|exact IH].
  destruct (InitialFacts.upper_points_ascii x Hlt Hx) as (n & -> & ? & ?).
  by repeat constructor.
Qed.

Lemma to_initials_ascii_witness :
  Forall (λ n, (65 ≤ n)%N ∧ (n ≤ 90)%N) (to_initials (lit "Jane Q. Public")).
Proof.
  apply to_initials_ascii. repeat constructor; by vm_compute.
Defined.

(** The examples of the specification. *)
Example to_initials_examples :
  to_initials [] = points (lit "NA")
  ∧ to_initials (lit "Jane Q. Public") = points (lit "JQP")
  ∧ to_initials (lit "jane.doe@example.com") = points (lit "NA").
Proof. by vm_compute. Qed.

(** ** What a resolution reads *)

Module ReadFacts.

Lemma take_min_length {A} (l : list A) n : take (Nat.min n (length l)) l = take n l.
Proof.
  destruct (decide (n ≤ length l)).
  - by replace (Nat.min n (length l)) with n by lia.
  - replace (Nat.min n (length l)) with (length l) by lia.
    by rewrite firstn_all, take_ge by lia.
Qed.

Lemma from_message_nothing msg st :
  nonempty (msg_title msg) = false →
  nonempty (msg_author msg) = false →
  truthy (msg_publisher msg) = false →
  from_message msg st = st.
Proof.
  unfold from_message. destruct msg as [[[|t0 ?]|] [[|a0 ?]|] [[|c p]|]];
    cbn; intros; try done; by rewrite andb_false_r.
Qed.

End ReadFacts.

(** X21: a resolution reads the first two pages and the embedded
    metadata, and nothing else of the document: two documents that agree on
    these resolve alike, whatever their later pages are. *)
Theorem resolve_first_pages net pdf_path doc doc' local_only email :
  take 2 (pages doc) = take 2 (pages doc') →
  metadata doc = metadata doc' →
  resolve net pdf_path doc local_only email = resolve net pdf_path doc' local_only email.
Proof.
  intros Hpages Hmeta. unfold resolve, gathered, extract_visible_text, stage_embedded.
  by rewrite !ReadFacts.take_min_length, Hpages, Hmeta.
Qed.

Lemma resolve_first_pages_witness :
  let first_two := [Some (lit "see 10.1000/xyz123."); Some (lit "second page")] in
  resolve dead_net (in_papers "scan.pdf")
    {| pages := first_two; metadata := None |} false None
  = resolve dead_net (in_papers "scan.pdf")
      {| pages := first_two ++ [None; Some (lit "cites 10.2000/later")];
         metadata := None |} false None.
Proof. intros first_two. apply resolve_first_pages; reflexivity. Defined.

(** X22: a reply that carries nothing (no message object, or a message
    without title, author and publisher, or with empty ones) sets no field:
    after the entry for the identifier found, the resolution is the one from
    the embedded metadata and the defaults, and the publisher is the default. *)
Theorem empty_reply net pdf_path doc email d msg :
  find_doi (Some (extract_visible_text doc 2)) = Some d →
  query_crossref_by_doi net d email = Return msg →
  nonempty (msg_title msg) = false →
  nonempty (msg_author msg) = false →
  truthy (msg_publisher msg) = false →
  let st := resolve net pdf_path doc false email in
  let fallbacks := stage_fallback pdf_path (stage_embedded doc initial) in
  log st = (lit "found DOI " ++ d) :: log fallbacks
  ∧ title st = title fallbacks
  ∧ first_author st = first_author fallbacks
  ∧ publisher st = Some (lit "Unknown Publisher").
Proof.
  intros Hd Hq Ht Ha Hp st fallbacks. subst st fallbacks.
  unfold resolve, gathered. cbn [negb]. unfold stage_crossref.
  rewrite Hd, (DoiFacts.find_doi_truthy _ _ Hd), Hq.
  rewrite (ReadFacts.from_message_nothing msg _ Ht Ha Hp).
  set (pre := [lit "found DOI " ++ d]).
  pose proof (LogFacts.stage_embedded_frame doc None None None pre [d] [] [])
    as (Htt & Haa & Hpp & new & Hla & Hlb).
  rewrite app_nil_l in Hlb.
  pose proof (LogFacts.stage_fallback_frame pdf_path _ _ pre Htt Haa Hpp
                ltac:(by rewrite Hla, Hlb)) as (Ht' & Ha' & Hp' & Hl').
  split_and!; [exact Hl' | exact Ht' | exact Ha' | ].
  by rewrite PipelineFacts.stage_fallback_publisher, PipelineFacts.stage_embedded_publisher.
Qed.

Lemma empty_reply_witness :
  let net : network := λ _ _, Body None in
  let st := resolve net (in_papers "scan.pdf") cited_doc false None in
  let fallbacks := stage_fallback (in_papers "scan.pdf") (stage_embedded cited_doc initial) in
  log st = (lit "found DOI " ++ lit "10.1000/xyz123") :: log fallbacks
  ∧ title st = title fallbacks
  ∧ first_author st = first_author fallbacks
  ∧ publisher st = Some (lit "Unknown Publisher").
Proof.
  intros net.
  apply (empty_reply net (in_papers "scan.pdf") cited_doc None (lit "10.1000/xyz123")
           empty_message).
  - by vm_compute.
  - reflexivity.
  - reflexivity.
  - reflexivity.
  - reflexivity.
Defined.

(** X23: two documents given the same candidate name never end at the
    same path: when a real run has moved one file, a second real run with the
    same candidate on the resulting file system returns another path, unless
    it is the no-op on a file that already has that name. *)
Theorem safe_rename_no_collision fuel fuel' (fs : FS) a b new_name :
  match safe_rename fuel fs a new_name false with
  | Some (Return f1, fs1) =>
      match safe_rename fuel' fs1 b new_name false with
      | Some (Return f2, _) => f1 = a ∨ f2 = b ∨ f2 ≠ f1
      | _ => True
      end
  | _ => True
  end.
Proof.
  pose proof (MoveFacts.safe_rename_effect fuel fs a new_name false) as E1.
  destruct (safe_rename fuel fs a new_name false) as [[[f1|?] fs1]|]; [|done|done].
  pose proof (MoveFacts.safe_rename_effect fuel' fs1 b new_name false) as E2.
  destruct (safe_rename fuel' fs1 b new_name false) as [[[f2|?] fs2]|]; [|done|done].
  destruct E1 as [[_ [?|?]]|(_ & _ & _ & -> & _ & _)]; [done|by left|].
  destruct E2 as [[_ [?|?]]|(_ & _ & Hfree & _)]; [done|right; by left|].
  right. right. intros ->. apply Hfree. apply elem_of_union. left.
  by apply elem_of_singleton.
Qed.
